(** * TransRouter: a shallow embedding of the duplex audio pipeline

    The development follows the source modules:
    - [device.py]: the capture callback of [record], the playback
      callback of [playout] and the feeding loop of [playout];
    - [gemini_transcriber.py]: [QueueIterator] and [GeminiTranscriber];
    - [translator.py]: [AudioTranslator];
    - [main.py]: the [run] command.

    Python objects that are mutated in place are modelled by explicit state
    passing; exceptions by the [result] type; the thread a callback is
    invoked in, the event loop, the network and the clock by explicit
    inputs of the functions that depend on them. *)

From Stdlib Require Import Strings.String Strings.Byte.
From Stdlib Require Import List Arith Lia Bool ZArith.
Import ListNotations.
Local Open Scope nat_scope.

(* ===================================================================== *)
(** * Common vocabulary *)
(* ===================================================================== *)

(** A Python [bytes] / [bytearray] value. *)
Definition bytes := list byte.

(** [bytes(n)]: [n] zero bytes. *)
Definition zeros (n : nat) : bytes := repeat x00 n.

(** The [Exception] subclasses the modelled code raises or catches, so
    that [except Exception] catches every value of this type.  The
    cancellation of the running coroutine itself ([CancelledError], a
    [BaseException]) is not modelled; awaiting a cancelled task is, in
    [Gemini.await_cancelled]. *)
Inductive exn : Type :=
| CallbackStop
| StopAsyncIteration
| QueueFull
| QueueEmpty
| ValueError
| TimeoutError
| OtherError.

Inductive result (A : Type) : Type :=
| Ok (a : A)
| Raise (e : exn).
Arguments Ok {A} a.
Arguments Raise {A} e.

Definition bind {A B : Type} (r : result A) (k : A -> result B) : result B :=
  match r with
  | Ok a => k a
  | Raise e => Raise e
  end.

Notation "x <- r ;; k" := (bind r (fun x => k))
  (at level 61, r at next level, right associativity).

(** Entries of a [logging.Logger]; the message is kept as a short key. *)
Inductive LogEntry : Type :=
| LogInfo (msg : string)
| LogWarning (msg : string)
| LogError (msg : string).

(** The thread a callback of [device.py] is invoked in: the thread in
    which the audio stream runs its callbacks, or the thread of the event
    loop that drives [record] and [playout]. *)
Inductive Thread : Type :=
| StreamThread
| LoopThread.

(** [asyncio.get_event_loop()]: the running loop when called in the
    loop's own thread; a [RuntimeError] in a thread that has no current
    event loop.  Neither [record] nor [playout] sets a loop for the thread
    of the stream, so the call raises there. *)
Definition get_event_loop (th : Thread) : result unit :=
  match th with
  | LoopThread => Ok tt
  | StreamThread => Raise OtherError
  end.

(* ===================================================================== *)
(** * [asyncio.Queue] *)
(* ===================================================================== *)

(** The part of CPython's [asyncio.Queue] the program uses.  [maxsize = 0]
    means unbounded.  A blocking [put]/[get] is enabled exactly when the
    corresponding [_nowait] operation succeeds. *)
Module AsyncQueue.

Record t (A : Type) : Type := mk {
  maxsize : nat;
  items : list A;
  unfinished_tasks : nat
}.
Arguments mk {A} _ _ _.
Arguments maxsize {A} _.
Arguments items {A} _.
Arguments unfinished_tasks {A} _.

Section Ops.
Context {A : Type}.

Definition create (n : nat) : t A := mk n [] 0.

Definition qsize (q : t A) : nat := length (items q).

Definition empty (q : t A) : bool :=
  match items q with
  | [] => true
  | _ :: _ => false
  end.

Definition full (q : t A) : bool :=
  if maxsize q =? 0 then false else maxsize q <=? qsize q.

Definition put_nowait (q : t A) (x : A) : result (t A) :=
  if full q then Raise QueueFull
  else Ok (mk (maxsize q) (items q ++ [x]) (S (unfinished_tasks q))).

Definition get_nowait (q : t A) : result (A * t A) :=
  match items q with
  | [] => Raise QueueEmpty
  | x :: rest => Ok (x, mk (maxsize q) rest (unfinished_tasks q))
  end.

Definition task_done (q : t A) : result (t A) :=
  match unfinished_tasks q with
  | 0 => Raise ValueError
  | S n => Ok (mk (maxsize q) (items q) n)
  end.

(** Every queued item has been counted by [put]. *)
Definition wf (q : t A) : Prop := qsize q <= unfinished_tasks q.

End Ops.

End AsyncQueue.

(* ===================================================================== *)
(** * [device.py]: the playback callback of [playout] *)
(* ===================================================================== *)

Module Playback.

(** [channels] and [np.dtype(dtype).itemsize] of the enclosing [playout]. *)
Record Config : Type := {
  channels : nat;
  itemsize : nat
}.

(** What [future.result(timeout=0.1)] followed by [buffer.extend] did:
    a frame was obtained and appended, or something raised inside the
    inner [try] (the 100 ms timeout, a loop error, a queue item that is
    not bytes-like). *)
Inductive Pull : Type :=
| Pulled (frame : bytes)
| PullFailed.

(** The variables the callback closes over: [buffer] and [done]. *)
Record State : Type := {
  buffer : bytes;
  done : bool
}.

(** What the stream sees: the bytes handed to [outdata.write], or the
    [sd.CallbackStop] that leaves the callback. *)
Inductive Outcome : Type :=
| Wrote (out : bytes)
| Stopped.

Definition required_bytes (cfg : Config) (frames : nat) : nat :=
  frames * channels cfg * itemsize cfg.

(** Lines 109-120: the refill step, inside the two nested [try]. *)
Definition refill (st : State) (required : nat) (pull : Pull) : result bytes :=
  if length (buffer st) <? required then
    match pull with
    | Pulled frame => Ok (buffer st ++ frame)
    | PullFailed =>
        if done st && (length (buffer st) =? 0) then Raise CallbackStop
        else Ok (buffer st ++ zeros (required - length (buffer st)))
    end
  else Ok (buffer st).

(** Lines 109-128: the part of an invocation of [callback] that follows
    line 108, for an invocation in which [asyncio.get_event_loop()] has
    returned the loop and [outdata.write] returns; the whole invocation,
    with both failures, is [invoke] below.  Returns the new closure state,
    what the stream sees, and the error lines logged; the warning about a
    non-zero [status] is left out.  The [CallbackStop] of line 118 is
    caught by the outer [except Exception], which logs it and raises
    [CallbackStop] again. *)
Definition callback (cfg : Config) (st : State) (frames : nat) (pull : Pull)
  : State * Outcome * list LogEntry :=
  let required := required_bytes cfg frames in
  match refill st required pull with
  | Ok buf =>
      ({| buffer := skipn required buf; done := done st |},
       Wrote (firstn required buf), [])
  | Raise _ =>
      (st, Stopped, [LogError "playback error"%string])
  end.

Definition state_of (r : State * Outcome * list LogEntry) : State :=
  fst (fst r).

Definition outcome_of (r : State * Outcome * list LogEntry) : Outcome :=
  snd (fst r).

(** The bytes a callback invocation delivered to the device. *)
Definition emitted (o : Outcome) : bytes :=
  match o with
  | Wrote out => out
  | Stopped => []
  end.

(** A pulled frame that is at least as long as the request. *)
Definition long_enough (cfg : Config) (period : nat * Pull) : Prop :=
  match snd period with
  | Pulled frame => required_bytes cfg (fst period) <= length frame
  | PullFailed => True
  end.

(** An outcome that is a stop or carries exactly the requested bytes. *)
Definition exact_or_stop (cfg : Config) (period : nat * Pull) (o : Outcome)
  : Prop :=
  match o with
  | Wrote out => length out = required_bytes cfg (fst period)
  | Stopped => True
  end.

(** Successive periods of invocations in which the loop is obtained and
    the write returns: the stream keeps invoking the callback until it
    raises [CallbackStop]. *)
Fixpoint run (cfg : Config) (st : State) (periods : list (nat * Pull))
  : State * list Outcome :=
  match periods with
  | [] => (st, [])
  | (frames, pull) :: rest =>
      match callback cfg st frames pull with
      | (st', Stopped, _) => (st', [Stopped])
      | (st', o, _) =>
          let '(st'', os) := run cfg st' rest in (st'', o :: os)
      end
  end.

(** What one invocation of the callback meets outside its closure: the
    thread it is invoked in, what the pull of lines 112-114 does when it
    is attempted, and whether [outdata.write] (line 123) returns. *)
Record Env : Type := {
  env_thread : Thread;
  env_pull : Pull;
  env_write_ok : bool
}.

(** Lines 100-128: one whole invocation of [callback].  Line 108 comes
    first inside the outer [try]: when [asyncio.get_event_loop()] raises,
    the outer handler logs and raises [CallbackStop] before the buffer is
    looked at.  When [outdata.write] raises, the buffer has been extended
    by the refill step but [del buffer[:required_bytes]] is not reached.
    The warning about a non-zero [status] is left out. *)
Definition invoke (cfg : Config) (st : State) (frames : nat) (env : Env)
  : State * Outcome * list LogEntry :=
  let required := required_bytes cfg frames in
  match get_event_loop (env_thread env) with
  | Raise _ => (st, Stopped, [LogError "playback error"%string])
  | Ok _ =>
      match refill st required (env_pull env) with
      | Ok buf =>
          if env_write_ok env then
            ({| buffer := skipn required buf; done := done st |},
             Wrote (firstn required buf), [])
          else
            ({| buffer := buf; done := done st |},
             Stopped, [LogError "playback error"%string])
      | Raise _ =>
          (st, Stopped, [LogError "playback error"%string])
      end
  end.

(** An invocation in which the loop is obtained and the write returns. *)
Definition env_returns (env : Env) : Prop :=
  get_event_loop (env_thread env) = Ok tt /\ env_write_ok env = true.

(** Successive periods of whole invocations, up to the first
    [CallbackStop]. *)
Fixpoint invoke_run (cfg : Config) (st : State) (periods : list (nat * Env))
  : State * list Outcome :=
  match periods with
  | [] => (st, [])
  | (frames, env) :: rest =>
      match invoke cfg st frames env with
      | (st', Stopped, _) => (st', [Stopped])
      | (st', o, _) =>
          let '(st'', os) := invoke_run cfg st' rest in (st'', o :: os)
      end
  end.

End Playback.

(* ===================================================================== *)
(** * [device.py]: the capture callback of [record] *)
(* ===================================================================== *)

Module Capture.

(** [ready]: the handles registered by [call_soon_threadsafe] that the
    loop has not run yet; [queue]: the [asyncio.Queue()] of [record];
    [yielded]: what the generator has yielded so far; [lost]: the frames
    that will never be yielded, because the callback raised before it
    registered a handle or because [put_nowait] raised inside the loop. *)
Record State : Type := {
  ready : list bytes;
  queue : AsyncQueue.t bytes;
  yielded : list bytes;
  lost : list bytes
}.

(** Line 40: [queue = asyncio.Queue()]. *)
Definition init : State :=
  {| ready := []; queue := AsyncQueue.create 0; yielded := []; lost := [] |}.

(** Lines 42-48: one invocation of [callback] in thread [th].  Line 47
    evaluates [asyncio.get_event_loop()] first: when it returns, the
    callback registers a handle with the loop and returns; when it raises,
    no handler surrounds the call, the exception leaves the callback and
    [call_soon_threadsafe] is not reached, so the frame is not handed
    over.  The warning about a non-zero [status] is left out. *)
Definition callback (st : State) (th : Thread) (indata : bytes) : State :=
  match get_event_loop th with
  | Ok _ =>
      {| ready := ready st ++ [indata]; queue := queue st;
         yielded := yielded st; lost := lost st |}
  | Raise _ =>
      {| ready := ready st; queue := queue st;
         yielded := yielded st; lost := lost st ++ [indata] |}
  end.

(** The loop runs one registered handle: [queue.put_nowait(frame)]. *)
Definition run_handle (st : State) : State :=
  match ready st with
  | [] => st
  | frame :: rest =>
      match AsyncQueue.put_nowait (queue st) frame with
      | Ok q => {| ready := rest; queue := q;
                   yielded := yielded st; lost := lost st |}
      | Raise _ => {| ready := rest; queue := queue st;
                      yielded := yielded st; lost := lost st ++ [frame] |}
      end
  end.

(** Lines 68-69: [audio_data = await queue.get(); yield audio_data];
    with an empty queue the generator stays suspended. *)
Definition consume (st : State) : State :=
  match AsyncQueue.get_nowait (queue st) with
  | Ok (frame, q) => {| ready := ready st; queue := q;
                        yielded := yielded st ++ [frame]; lost := lost st |}
  | Raise _ => st
  end.

Inductive Event : Type :=
| HwCallback (th : Thread) (indata : bytes)
| LoopRunsHandle
| ConsumerGet.

Definition step (st : State) (e : Event) : State :=
  match e with
  | HwCallback th indata => callback st th indata
  | LoopRunsHandle => run_handle st
  | ConsumerGet => consume st
  end.

Definition run (evs : list Event) : State := fold_left step evs init.

(** Frames handed over by the hardware, in order. *)
Fixpoint captured (evs : list Event) : list bytes :=
  match evs with
  | [] => []
  | HwCallback _ indata :: rest => indata :: captured rest
  | _ :: rest => captured rest
  end.

(** The captured frames of the invocations that registered a handle. *)
Fixpoint registered (evs : list Event) : list bytes :=
  match evs with
  | [] => []
  | HwCallback th indata :: rest =>
      match get_event_loop th with
      | Ok _ => indata :: registered rest
      | Raise _ => registered rest
      end
  | _ :: rest => registered rest
  end.

(** The captured frames of the invocations that raised. *)
Fixpoint unregistered (evs : list Event) : list bytes :=
  match evs with
  | [] => []
  | HwCallback th indata :: rest =>
      match get_event_loop th with
      | Ok _ => unregistered rest
      | Raise _ => indata :: unregistered rest
      end
  | _ :: rest => unregistered rest
  end.


(** Frames sitting between the callback and the consumer. *)
Definition buffered (st : State) : nat :=
  length (ready st) + AsyncQueue.qsize (queue st).

(** The invariant of the hand-off: the queue of [record] stays unbounded,
    the lost frames are those of the invocations that raised, and every
    frame whose handle was registered is, in capture order, either
    yielded, queued or still registered with the loop. *)
Definition capture_inv (evs : list Event) (st : State) : Prop :=
  AsyncQueue.maxsize (queue st) = 0
  /\ lost st = unregistered evs
  /\ yielded st ++ AsyncQueue.items (queue st) ++ ready st = registered evs.

End Capture.

(* ===================================================================== *)
(** * [gemini_transcriber.py]: [QueueIterator] *)
(* ===================================================================== *)

Module QueueIterator.

Section Iter.
Context {A : Type}.

(** The queue holds Python values that are either a frame or [None]. *)
Definition queue : Type := AsyncQueue.t (option A).

(** Lines 20-27: [__anext__].  The outer [None] means the coroutine is
    suspended in [await self.queue.get()] on an empty queue.  The
    [finally] clause runs [task_done] whichever way the [try] ended;
    an exception raised there replaces the pending outcome. *)
Definition anext (q : queue) : option (result A * queue) :=
  match AsyncQueue.get_nowait q with
  | Raise _ => None
  | Ok (item, q1) =>
      let r := match item with
               | None => Raise StopAsyncIteration
               | Some x => Ok x
               end in
      match AsyncQueue.task_done q1 with
      | Ok q2 => Some (r, q2)
      | Raise e => Some (Raise e, q1)
      end
  end.

(** How an [async for] over the iterator ended. *)
Inductive LoopEnd : Type :=
| Exhausted            (* StopAsyncIteration: the loop is left *)
| Waiting              (* suspended on an empty queue *)
| Failed (e : exn)     (* another exception left the loop *)
| OutOfFuel.

(** [async for data in audio_iterator: <body data>] as [play] runs it:
    the frames handed to the body, in order, how the loop ended, and
    the queue that is left. *)
Fixpoint async_for (fuel : nat) (q : queue) : list A * LoopEnd * queue :=
  match fuel with
  | 0 => ([], OutOfFuel, q)
  | S fuel' =>
      match anext q with
      | None => ([], Waiting, q)
      | Some (Ok x, q') =>
          let '(xs, e, q'') := async_for fuel' q' in (x :: xs, e, q'')
      | Some (Raise StopAsyncIteration, q') => ([], Exhausted, q')
      | Some (Raise e, q') => ([], Failed e, q')
      end
  end.

(** The frames of the longest prefix that holds no [None]. *)
Fixpoint frames_before_none (l : list (option A)) : list A :=
  match l with
  | Some x :: rest => x :: frames_before_none rest
  | _ => []
  end.

(** Whether some item of the queue is [None]. *)
Fixpoint has_none (l : list (option A)) : bool :=
  match l with
  | [] => false
  | None :: _ => true
  | Some _ :: rest => has_none rest
  end.

(** What [__anext__] is expected to answer for a dequeued item. *)
Definition answer_for (item : option A) : result A :=
  match item with
  | Some x => Ok x
  | None => Raise StopAsyncIteration
  end.

(** One more step than there are items always suffices. *)
Definition consume (q : queue) : list A * LoopEnd * queue :=
  async_for (S (AsyncQueue.qsize q)) q.

End Iter.

End QueueIterator.

(* ===================================================================== *)
(** * [gemini_transcriber.py]: [GeminiTranscriber] *)
(* ===================================================================== *)

Module Gemini.

(** The life of an [asyncio.Task] as the code can observe it. *)
Inductive TaskStatus : Type :=
| Scheduled     (* created, body not entered yet *)
| Running       (* suspended at an await inside the body *)
| Finished      (* the coroutine returned *)
| Failed        (* the coroutine ended with an exception *)
| Cancelled.

(** The fields of a server message that [start_session] reads.  A
    [model_turn] whose [parts] is [None] or empty is skipped alike. *)
Record Part : Type := {
  text : option string;
  inline_data : option bytes
}.

Record ServerContent : Type := {
  model_turn : option (list Part);
  turn_complete : bool
}.

Record Response : Type := {
  server_content : option ServerContent
}.

(** The attributes of a [GeminiTranscriber], the local [full_text] of
    [start_session], and counters of the calls made on the service. *)
Record t : Type := mk {
  session : option nat;
  send_task : option TaskStatus;
  session_task : option TaskStatus;
  audio_in : AsyncQueue.t (option bytes);
  audio_out : AsyncQueue.t bytes;
  result_queue : AsyncQueue.t string;
  full_text : string;
  connects : nat;          (* calls of client.aio.live.connect *)
  closes : nat;            (* calls of session.close() *)
  ctx_exits : nat;         (* exits of the async-with block *)
  sent : list bytes;       (* frames passed to session.send *)
  log : list LogEntry
}.

(** Lines 56-68 of [__init__]. *)
Definition init : t :=
  {| session := None; send_task := None; session_task := None;
     audio_in := AsyncQueue.create 0;
     audio_out := AsyncQueue.create 50;
     result_queue := AsyncQueue.create 0;
     full_text := EmptyString;
     connects := 0; closes := 0; ctx_exits := 0; sent := []; log := [] |}.

Definition set_session v (g : t) : t :=
  mk v (send_task g) (session_task g) (audio_in g) (audio_out g)
     (result_queue g) (full_text g) (connects g) (closes g) (ctx_exits g)
     (sent g) (log g).
Definition set_send_task v (g : t) : t :=
  mk (session g) v (session_task g) (audio_in g) (audio_out g)
     (result_queue g) (full_text g) (connects g) (closes g) (ctx_exits g)
     (sent g) (log g).
Definition set_session_task v (g : t) : t :=
  mk (session g) (send_task g) v (audio_in g) (audio_out g)
     (result_queue g) (full_text g) (connects g) (closes g) (ctx_exits g)
     (sent g) (log g).
Definition set_audio_in v (g : t) : t :=
  mk (session g) (send_task g) (session_task g) v (audio_out g)
     (result_queue g) (full_text g) (connects g) (closes g) (ctx_exits g)
     (sent g) (log g).
Definition set_audio_out v (g : t) : t :=
  mk (session g) (send_task g) (session_task g) (audio_in g) v
     (result_queue g) (full_text g) (connects g) (closes g) (ctx_exits g)
     (sent g) (log g).
Definition set_result_queue v (g : t) : t :=
  mk (session g) (send_task g) (session_task g) (audio_in g) (audio_out g)
     v (full_text g) (connects g) (closes g) (ctx_exits g) (sent g) (log g).
Definition set_full_text v (g : t) : t :=
  mk (session g) (send_task g) (session_task g) (audio_in g) (audio_out g)
     (result_queue g) v (connects g) (closes g) (ctx_exits g) (sent g) (log g).
Definition count_connect (g : t) : t :=
  mk (session g) (send_task g) (session_task g) (audio_in g) (audio_out g)
     (result_queue g) (full_text g) (S (connects g)) (closes g) (ctx_exits g)
     (sent g) (log g).
Definition count_close (g : t) : t :=
  mk (session g) (send_task g) (session_task g) (audio_in g) (audio_out g)
     (result_queue g) (full_text g) (connects g) (S (closes g)) (ctx_exits g)
     (sent g) (log g).
Definition count_ctx_exit (g : t) : t :=
  mk (session g) (send_task g) (session_task g) (audio_in g) (audio_out g)
     (result_queue g) (full_text g) (connects g) (closes g) (S (ctx_exits g))
     (sent g) (log g).
Definition add_sent v (g : t) : t :=
  mk (session g) (send_task g) (session_task g) (audio_in g) (audio_out g)
     (result_queue g) (full_text g) (connects g) (closes g) (ctx_exits g)
     (sent g ++ [v]) (log g).
Definition add_log v (g : t) : t :=
  mk (session g) (send_task g) (session_task g) (audio_in g) (audio_out g)
     (result_queue g) (full_text g) (connects g) (closes g) (ctx_exits g)
     (sent g) (log g ++ [v]).

(** [await q.put(x)] on one of the two unbounded queues: it cannot
    block, and [put_nowait] cannot raise there. *)
Definition put_unbounded {A : Type} (q : AsyncQueue.t A) (x : A)
  : AsyncQueue.t A :=
  match AsyncQueue.put_nowait q x with
  | Ok q' => q'
  | Raise _ => q
  end.

(** ** [transcribe_audio], lines 151-178 *)

(** What [await asyncio.wait_for(self.audio_out.put(data), 0.1)] did.
    Cancellation of the calling task itself is not modelled. *)
Inductive PutOutcome : Type :=
| PutDone
| PutTimeout
| PutRaised.

(** The body of the outer [try]. *)
Definition transcribe_body (g : t) (data : bytes) (env : PutOutcome)
  : t * result unit :=
  let g1 := match session_task g with
            | None => set_session_task (Some Scheduled) g
            | Some _ => g
            end in
  if 50 <=? AsyncQueue.qsize (audio_out g1) then
    (add_log (LogWarning "audio queue full, frame dropped") g1, Ok tt)
  else
    match env with
    | PutDone =>
        match AsyncQueue.put_nowait (audio_out g1) data with
        | Ok q => (set_audio_out q g1, Ok tt)
        | Raise _ =>
            (add_log (LogWarning "audio queue put timed out") g1, Ok tt)
        end
    | PutTimeout =>
        (add_log (LogWarning "audio queue put timed out") g1, Ok tt)
    | PutRaised => (g1, Raise OtherError)
    end.

(** The whole coroutine: [except Exception] logs and returns [None]. *)
Definition transcribe_audio (g : t) (data : bytes) (env : PutOutcome)
  : t * result unit :=
  match transcribe_body g data env with
  | (g', Ok v) => (g', Ok v)
  | (g', Raise _) => (add_log (LogError "transcribe error") g', Ok tt)
  end.

(** ** [_send_audio], lines 70-85: one turn of the [while True] loop.
    [send_ok] tells whether [session.send] returned or raised. *)
Definition send_audio_step (g : t) (send_ok : bool) : t :=
  match send_task g with
  | Some Scheduled | Some Running =>
      match AsyncQueue.get_nowait (audio_out g) with
      | Raise _ => set_send_task (Some Running) g
      | Ok (data, q) =>
          let g1 := set_audio_out q (set_send_task (Some Running) g) in
          match session g1 with
          | None => g1
          | Some _ =>
              if send_ok then add_sent data g1
              else set_send_task (Some Finished)
                     (add_log (LogError "send audio error") g1)
          end
      end
  | _ => g
  end.

(** ** [start_session], lines 87-127 *)

(** Lines 89-97: the task body is entered.  [connect_ok] tells whether
    [client.aio.live.connect] succeeded; a failure there is outside the
    [try] and ends the task with the exception. *)
Definition start_session_enter (g : t) (connect_ok : bool) : t :=
  match session_task g with
  | Some Scheduled =>
      match session g with
      | None =>
          let g1 := count_connect g in
          if connect_ok then
            set_full_text EmptyString
              (set_session_task (Some Running)
                 (set_send_task (Some Scheduled)
                    (set_session (Some (connects g)) g1)))
          else set_session_task (Some Failed) g1
      | Some _ => set_session_task (Some Finished) g
      end
  | _ => g
  end.

(** Lines 107-112: the loop over the parts of a model turn. *)
Fixpoint start_session_parts (g : t) (parts : list Part) : t :=
  match parts with
  | [] => g
  | p :: rest =>
      let g1 :=
        match text p with
        | Some s => set_full_text (String.append (full_text g) s) g
        | None =>
            match inline_data p with
            | Some data =>
                set_audio_in (put_unbounded (audio_in g) (Some data)) g
            | None => g
            end
        end in
      start_session_parts g1 rest
  end.

(** The audio payloads of a model turn: parts without text that carry
    inline data. *)
Fixpoint audio_of_parts (parts : list Part) : list bytes :=
  match parts with
  | [] => []
  | p :: rest =>
      match text p, inline_data p with
      | None, Some data => data :: audio_of_parts rest
      | _, _ => audio_of_parts rest
      end
  end.

(** Lines 114-121: the turn-complete branch. *)
Definition start_session_turn_complete (g : t) : t :=
  let g1 := set_result_queue
              (put_unbounded (result_queue g) (full_text g)) g in
  let g2 := add_log (LogInfo "turn_complete") g1 in
  let g3 := match full_text g2 with
            | EmptyString => g2
            | String _ _ =>
                set_full_text EmptyString (add_log (LogInfo "text") g2)
            end in
  set_audio_in (put_unbounded (audio_in g3) None) g3.

(** Lines 103-121: one response delivered by [session.receive()]. *)
Definition start_session_response (g : t) (r : Response) : t :=
  match session_task g with
  | Some Running =>
      match server_content r with
      | None => g
      | Some sc =>
          let g1 := match model_turn sc with
                    | Some parts => start_session_parts g parts
                    | None => g
                    end in
          if turn_complete sc then start_session_turn_complete g1 else g1
      end
  | _ => g
  end.

(** Lines 101-103: [receive()] is exhausted and [while True] starts the
    next round with a fresh [full_text]. *)
Definition start_session_next_round (g : t) : t :=
  match session_task g with
  | Some Running => set_full_text EmptyString g
  | _ => g
  end.

(** Lines 123-127: an exception inside the receive loop.  [close_ok]
    tells whether [session.close()] returned; afterwards the
    [async with] block is left and the coroutine ends. *)
Definition start_session_except (g : t) (close_ok : bool) : t :=
  match session_task g with
  | Some Running =>
      let g1 := add_log (LogError "receive error") g in
      match session g1 with
      | Some _ =>
          let g2 := count_close g1 in
          if close_ok
          then set_session_task (Some Finished)
                 (count_ctx_exit (set_session None g2))
          else set_session_task (Some Failed) (count_ctx_exit g2)
      | None => set_session_task (Some Finished) (count_ctx_exit g1)
      end
  | _ => g
  end.

(** ** [stop_session], lines 129-149 *)

(** [await task] after [task.cancel()]: a task that had already ended
    with an exception re-raises it, one that had returned yields its
    value, any other ends cancelled and raises [CancelledError]. *)
Inductive AwaitOutcome : Type :=
| Returned
| RaisedCancelled
| RaisedException.

Definition await_cancelled (s : TaskStatus) : AwaitOutcome :=
  match s with
  | Failed => RaisedException
  | Finished => Returned
  | Scheduled | Running | Cancelled => RaisedCancelled
  end.

(** [try: await task / except asyncio.CancelledError: pass]. *)
Definition await_ignoring_cancel (s : TaskStatus) : result unit :=
  match await_cancelled s with
  | Returned | RaisedCancelled => Ok tt
  | RaisedException => Raise OtherError
  end.

(** Lines 131-137.  A running [_send_audio] catches the cancellation
    itself, logs it and returns. *)
Definition stop_send_task (g : t) : t * result unit :=
  match send_task g with
  | None => (g, Ok tt)
  | Some s =>
      let g1 := match s with
                | Running => add_log (LogInfo "send task cancelled") g
                | _ => g
                end in
      let s' := match s with
                | Running => Finished
                | _ => s
                end in
      match await_ignoring_cancel s' with
      | Ok _ => (set_send_task None g1, Ok tt)
      | Raise e => (g1, Raise e)
      end
  end.

(** Lines 139-145.  Cancelling a running [start_session] unwinds its
    [async with] block. *)
Definition stop_session_task (g : t) : t * result unit :=
  match session_task g with
  | None => (g, Ok tt)
  | Some s =>
      let g1 := match s with
                | Running => count_ctx_exit g
                | _ => g
                end in
      match await_ignoring_cancel s with
      | Ok _ => (set_session_task None g1, Ok tt)
      | Raise e => (g1, Raise e)
      end
  end.

(** Lines 147-149. *)
Definition stop_close (g : t) : t * result unit :=
  match session g with
  | Some _ => (set_session None (count_close g), Ok tt)
  | None => (g, Ok tt)
  end.

Definition stop_session (g : t) : t * result unit :=
  match stop_send_task g with
  | (g1, Raise e) => (g1, Raise e)
  | (g1, Ok _) =>
      match stop_session_task g1 with
      | (g2, Raise e) => (g2, Raise e)
      | (g2, Ok _) => stop_close g2
      end
  end.

(** ** The link as a transition system *)

Inductive Event : Type :=
| Transcribe (data : bytes) (env : PutOutcome)
| SessionTaskRuns (connect_ok : bool)
| Receives (r : Response)
| ReceiveEnds
| ReceiveFails (close_ok : bool)
| SendRuns (send_ok : bool)
| StopSession.

Definition step (g : t) (e : Event) : t :=
  match e with
  | Transcribe data env => fst (transcribe_audio g data env)
  | SessionTaskRuns ok => start_session_enter g ok
  | Receives r => start_session_response g r
  | ReceiveEnds => start_session_next_round g
  | ReceiveFails ok => start_session_except g ok
  | SendRuns ok => send_audio_step g ok
  | StopSession => fst (stop_session g)
  end.

Definition run (g : t) (evs : list Event) : t := fold_left step evs g.

(** The session task has ended, by returning or with an exception. *)
Definition link_down (g : t) : Prop :=
  session_task g = Some Finished \/ session_task g = Some Failed.


(** A server message that carries one audio part. *)
Definition audio_response (data : bytes) : Response :=
  {| server_content :=
       Some {| model_turn := Some [{| text := None; inline_data := Some data |}];
               turn_complete := false |} |}.

(** A server message that only marks the end of the turn. *)
Definition turn_complete_marker : Response :=
  {| server_content := Some {| model_turn := None; turn_complete := true |} |}.

Definition is_stop (e : Event) : bool :=
  match e with
  | StopSession => true
  | _ => false
  end.

End Gemini.

(* ===================================================================== *)
(** * [translator.py]: [AudioTranslator] *)
(* ===================================================================== *)

(** The interface [AudioTranslator] expects of its [transcriber]
    attribute; the tests replace the attribute by a double with the same
    two coroutines.  [Env] is what the environment decides during a call
    of [transcribe_audio]. *)
Class Transcriber (T : Type) : Type := {
  Env : Type;
  transcribe_audio : T -> bytes -> Env -> T * result unit;
  stop_session : T -> T * result unit
}.

#[export] Instance gemini_transcriber : Transcriber Gemini.t := {|
  Env := Gemini.PutOutcome;
  transcribe_audio := Gemini.transcribe_audio;
  stop_session := Gemini.stop_session
|}.

(** A double in the manner of the tests' [MockGeminiTranscriber]: it
    records the frames it accepted, and its [transcribe_audio] raises when
    told to, which exercises the failure path of [process_audio]. *)
#[export] Instance flaky_transcriber : Transcriber (list bytes) := {|
  Env := bool;
  transcribe_audio := fun seen data ok =>
    if ok then (seen ++ [data], Ok tt) else (seen, Raise OtherError);
  stop_session := fun seen => (seen, Ok tt)
|}.

Module Translator.

(** Modelled from the spec: the class [AudioRecorder] imported from
    [device] is missing from the sources.  The fields are the constructor
    arguments of lines 44-49 and the [is_active] flag the tests read. *)
Record Recorder : Type := {
  r_channels : nat;
  r_samplerate : N;
  r_active : bool
}.

(** Modelled from the spec: the class [AudioPlayer] imported from
    [device] is missing from the sources.  The fields are the constructor
    arguments of lines 51-56, the [is_active] flag the tests read and the
    end-of-stream signal of section 4.3. *)
Record Player : Type := {
  p_channels : nat;
  p_samplerate : N;
  p_active : bool;
  p_end_of_stream : bool
}.

(** Modelled from the spec: [AudioRecorder.stop] is missing from the
    sources; section 4.2 says that it closes the stream. *)
Definition recorder_stop (r : Recorder) : Recorder :=
  {| r_channels := r_channels r; r_samplerate := r_samplerate r;
     r_active := false |}.

(** Modelled from the spec: [AudioPlayer.stop] is missing from the
    sources; section 4.3 says that it is idempotent, raises end-of-stream
    immediately and releases the hardware stream. *)
Definition player_stop (p : Player) : Player :=
  {| p_channels := p_channels p; p_samplerate := p_samplerate p;
     p_active := false; p_end_of_stream := true |}.

(** ** [np.frombuffer(data, dtype=np.int16)] and [np.concatenate] *)

(** A little-endian two's-complement 16-bit sample. *)
Definition int16_of (lo hi : byte) : Z :=
  let u := (Z.of_nat (Byte.to_nat lo) + 256 * Z.of_nat (Byte.to_nat hi))%Z in
  if (u <? 32768)%Z then u else (u - 65536)%Z.

(** Raises [ValueError] when the buffer is not a whole number of
    samples. *)
Fixpoint frombuffer (data : bytes) : result (list Z) :=
  match data with
  | [] => Ok []
  | [_] => Raise ValueError
  | lo :: hi :: rest =>
      arr <- frombuffer rest ;; Ok (int16_of lo hi :: arr)
  end.

Definition concatenate (arrays : list (list Z)) : list Z := concat arrays.

(** ** State *)

(** A file written by [wavfile.write(filename, rate, data)]. *)
Record WavFile : Type := {
  filename : string;
  rate : N;
  samples : list Z
}.

(** What [process_audio] did with a frame, in order. *)
Inductive Effect : Type :=
| Appended (arr : list Z)
| Forwarded (data : bytes).

(** The arrays appended to the recording buffer, in order. *)
Fixpoint appended_arrays (tr : list Effect) : list (list Z) :=
  match tr with
  | [] => []
  | Appended arr :: rest => arr :: appended_arrays rest
  | Forwarded _ :: rest => appended_arrays rest
  end.

Section WithTranscriber.
Context {T : Type} `{Transcriber T}.

Record t : Type := mk {
  input_sample_rate : N;
  output_sample_rate : N;
  channels : nat;
  recorder : Recorder;
  player : Player;
  transcriber : T;
  recording_buffer : list (list Z);
  running : bool;
  files : list WavFile;      (* what has been written to disk *)
  trace : list Effect;       (* what process_audio did, in order *)
  log : list LogEntry
}.

(** Lines 30-71: [__init__], with the transcriber it creates. *)
Definition init (tr : T) : t :=
  {| input_sample_rate := 16000%N;
     output_sample_rate := 24000%N;
     channels := 1;
     recorder := {| r_channels := 1; r_samplerate := 16000%N;
                    r_active := false |};
     player := {| p_channels := 1; p_samplerate := 24000%N;
                  p_active := false; p_end_of_stream := false |};
     transcriber := tr;
     recording_buffer := [];
     running := true;
     files := [];
     trace := [];
     log := [] |}.

Definition set_recorder v (a : t) : t :=
  mk (input_sample_rate a) (output_sample_rate a) (channels a) v
     (player a) (transcriber a) (recording_buffer a) (running a)
     (files a) (trace a) (log a).
Definition set_player v (a : t) : t :=
  mk (input_sample_rate a) (output_sample_rate a) (channels a)
     (recorder a) v (transcriber a) (recording_buffer a) (running a)
     (files a) (trace a) (log a).
Definition set_transcriber v (a : t) : t :=
  mk (input_sample_rate a) (output_sample_rate a) (channels a)
     (recorder a) (player a) v (recording_buffer a) (running a)
     (files a) (trace a) (log a).
Definition set_recording_buffer v (a : t) : t :=
  mk (input_sample_rate a) (output_sample_rate a) (channels a)
     (recorder a) (player a) (transcriber a) v (running a)
     (files a) (trace a) (log a).
Definition set_running v (a : t) : t :=
  mk (input_sample_rate a) (output_sample_rate a) (channels a)
     (recorder a) (player a) (transcriber a) (recording_buffer a) v
     (files a) (trace a) (log a).
Definition add_file v (a : t) : t :=
  mk (input_sample_rate a) (output_sample_rate a) (channels a)
     (recorder a) (player a) (transcriber a) (recording_buffer a)
     (running a) (files a ++ [v]) (trace a) (log a).
Definition add_effect v (a : t) : t :=
  mk (input_sample_rate a) (output_sample_rate a) (channels a)
     (recorder a) (player a) (transcriber a) (recording_buffer a)
     (running a) (files a) (trace a ++ [v]) (log a).
Definition add_log v (a : t) : t :=
  mk (input_sample_rate a) (output_sample_rate a) (channels a)
     (recorder a) (player a) (transcriber a) (recording_buffer a)
     (running a) (files a) (trace a) (log a ++ [v]).

(** ** [save_wav], lines 73-85 *)

(** [sample_rate or self.input_sample_rate]: [None] and [0] are both
    falsy. *)
Definition rate_or_default (a : t) (sample_rate : option N) : N :=
  match sample_rate with
  | Some (Npos p) => Npos p
  | Some N0 | None => input_sample_rate a
  end.

(** [now] is the timestamp [datetime.now()] formats.  Returns the
    file name, or [None] when nothing was written. *)
Definition save_wav (a : t) (audio_data : option (list Z))
    (directory prefix : string) (sample_rate : option N) (now : string)
  : t * option string :=
  match audio_data with
  | None | Some [] => (add_log (LogWarning "no audio data") a, None)
  | Some (x :: xs) =>
      let name := (directory ++ "/" ++ prefix ++ "_" ++ now ++ ".wav")%string in
      let file := {| filename := name;
                     rate := rate_or_default a sample_rate;
                     samples := x :: xs |} in
      (add_log (LogInfo "audio saved") (add_file file a), Some name)
  end.

(** ** [process_audio], lines 87-98 *)

(** The body of the [try]. *)
Definition process_body (a : t) (audio_data : bytes) (env : Env)
  : t * result unit :=
  match frombuffer audio_data with
  | Raise e => (a, Raise e)
  | Ok audio_array =>
      let a1 := add_effect (Appended audio_array)
                  (set_recording_buffer
                     (recording_buffer a ++ [audio_array]) a) in
      let a2 := add_effect (Forwarded audio_data) a1 in
      let '(tr, r) := transcribe_audio (transcriber a2) audio_data env in
      (set_transcriber tr a2, r)
  end.

(** [except Exception] logs and falls off the end of the function. *)
Definition process_audio (a : t) (audio_data : bytes) (env : Env)
  : t * result unit :=
  match process_body a audio_data env with
  | (a', Ok v) => (a', Ok v)
  | (a', Raise _) => (add_log (LogError "process audio error") a', Ok tt)
  end.

(** ** [stop], lines 142-152.  [hasattr(self, 'transcriber')] holds for
    every constructed instance. *)

Definition stop (a : t) : t * result unit :=
  let a1 := set_running false a in
  let a2 := set_recorder (recorder_stop (recorder a1)) a1 in
  let a3 := set_player (player_stop (player a2)) a2 in
  let '(tr, r) := stop_session (transcriber a3) in
  (set_transcriber tr a3, r).

(** ** [start_streaming], lines 100-132 *)

(** What happens while the capture loop runs: the recorder yields a
    frame, another task calls [stop()], or the recorder raises. *)
Inductive LoopEvent : Type :=
| Frame (data : bytes) (env : Env)
| StopCalled
| RecorderRaises.

(** Lines 110-116: the [async for] over [recorder.start()] and the
    [except Exception] around it.  The list ends when the recorder's
    sequence does. *)
Fixpoint capture_loop (a : t) (evs : list LoopEvent) : t :=
  match evs with
  | [] => a
  | Frame data env :: rest =>
      if running a
      then capture_loop (fst (process_audio a data env)) rest
      else a
  | StopCalled :: rest => capture_loop (fst (stop a)) rest
  | RecorderRaises :: _ => add_log (LogError "streaming error") a
  end.

(** Lines 119-122: the flush of the recording buffer. *)
Definition flush (a : t) (now : string) : t :=
  match recording_buffer a with
  | [] => a
  | _ :: _ =>
      let audio_data := concatenate (recording_buffer a) in
      let '(a1, _) := save_wav a (Some audio_data)
                        "recordings" "recording" None now in
      set_recording_buffer [] a1
  end.

(** Lines 117-132: the [finally] block.  The playback task is awaited
    after [stop()] returned. *)
Definition finally_block (a : t) (now : string) : t * result unit :=
  stop (flush a now).

Definition start_streaming (a : t) (evs : list LoopEvent) (now : string)
  : t * result unit :=
  finally_block (capture_loop a evs) now.

End WithTranscriber.

Arguments t T : clear implicits.

End Translator.


(* ===================================================================== *)
(** * [device.py]: the feeding loop of [playout] *)
(* ===================================================================== *)

Module Playout.

(** Where the coroutine of [playout] stands: in the [async for] of lines
    145-146, in the waiting loop of lines 151-152, returned, or left by
    an exception of the iterator. *)
Inductive Phase : Type :=
| Feeding
| Draining
| Returned
| Raised.

(** [queue] and [done] are the locals of lines 96-97.  [in_hand] is the
    frame of a suspended [await queue.put(data)].  The three lists record
    what the iterator yielded, what entered the queue and what the
    getters took from it, in order. *)
Record State : Type := mk {
  queue : AsyncQueue.t bytes;
  in_hand : option bytes;
  done : bool;
  phase : Phase;
  yielded : list bytes;
  entered : list bytes;
  taken : list bytes
}.

(** Lines 96-97: [asyncio.Queue(maxsize=100)] and a cleared event. *)
Definition init : State :=
  {| queue := AsyncQueue.create 100; in_hand := None; done := false;
     phase := Feeding; yielded := []; entered := []; taken := [] |}.

(** Line 146: [await queue.put(data)]; on a full queue the coroutine
    stays suspended with the frame in hand. *)
Definition try_put (st : State) (data : bytes) : State :=
  match AsyncQueue.put_nowait (queue st) data with
  | Ok q => mk q None (done st) (phase st) (yielded st)
               (entered st ++ [data]) (taken st)
  | Raise _ => mk (queue st) (Some data) (done st) (phase st) (yielded st)
                  (entered st) (taken st)
  end.

(** Line 145: the iterator yields the next frame, which is then put. *)
Definition iter_yields (st : State) (data : bytes) : State :=
  match phase st, in_hand st with
  | Feeding, None =>
      try_put (mk (queue st) None (done st) (phase st)
                  (yielded st ++ [data]) (entered st) (taken st)) data
  | _, _ => st
  end.

(** The suspended [put] is resumed. *)
Definition put_resumes (st : State) : State :=
  match phase st, in_hand st with
  | Feeding, Some data => try_put st data
  | _, _ => st
  end.

(** Lines 145-148: the iterator is exhausted; [finally] sets [done] and
    the waiting loop is entered. *)
Definition iter_ends (st : State) : State :=
  match phase st, in_hand st with
  | Feeding, None => mk (queue st) None true Draining (yielded st)
                        (entered st) (taken st)
  | _, _ => st
  end.

(** Lines 145-148 and 154-156: the iterator raises; [finally] sets
    [done] and the exception leaves [playout]. *)
Definition iter_raises (st : State) : State :=
  match phase st, in_hand st with
  | Feeding, None => mk (queue st) None true Raised (yielded st)
                        (entered st) (taken st)
  | _, _ => st
  end.

(** A [queue.get()] started by the callback completes, whether or not
    the callback still waits for its result. *)
Definition getter_takes (st : State) : State :=
  match AsyncQueue.get_nowait (queue st) with
  | Ok (data, q) => mk q (in_hand st) (done st) (phase st) (yielded st)
                       (entered st) (taken st ++ [data])
  | Raise _ => st
  end.

(** Lines 151-152: one test of the waiting loop; [buffer_empty] is
    [len(buffer) == 0] at that moment. *)
Definition wait_check (st : State) (buffer_empty : bool) : State :=
  match phase st with
  | Draining =>
      if AsyncQueue.empty (queue st) && buffer_empty
      then mk (queue st) (in_hand st) (done st) Returned (yielded st)
              (entered st) (taken st)
      else st
  | _ => st
  end.

Inductive Event : Type :=
| IterYields (data : bytes)
| PutResumes
| IterEnds
| IterRaises
| GetterTakes
| WaitCheck (buffer_empty : bool).

Definition step (st : State) (e : Event) : State :=
  match e with
  | IterYields data => iter_yields st data
  | PutResumes => put_resumes st
  | IterEnds => iter_ends st
  | IterRaises => iter_raises st
  | GetterTakes => getter_takes st
  | WaitCheck b => wait_check st b
  end.

Definition run (evs : list Event) : State := fold_left step evs init.

(** The frame of a suspended [put], as a list. *)
Definition held (st : State) : list bytes :=
  match in_hand st with
  | Some data => [data]
  | None => []
  end.

(** What every reachable state of the feeding loop satisfies. *)
Definition inv (st : State) : Prop :=
  AsyncQueue.maxsize (queue st) = 100
  /\ AsyncQueue.qsize (queue st) <= 100
  /\ entered st = taken st ++ AsyncQueue.items (queue st)
  /\ yielded st = entered st ++ held st
  /\ (done st = true <-> phase st <> Feeding)
  /\ (phase st <> Feeding -> in_hand st = None)
  /\ (phase st = Returned -> AsyncQueue.items (queue st) = []).

End Playout.

(* ===================================================================== *)
(** * [gemini_transcriber.py]: the text of a model turn *)
(* ===================================================================== *)

(** The text fragments of the parts of a model turn, concatenated in
    order (lines 107-109). *)
Fixpoint text_of_parts (parts : list Gemini.Part) : string :=
  match parts with
  | [] => EmptyString
  | p :: rest =>
      match Gemini.text p with
      | Some s => String.append s (text_of_parts rest)
      | None => text_of_parts rest
      end
  end.

Definition text_of_turn (sc : Gemini.ServerContent) : string :=
  match Gemini.model_turn sc with
  | Some parts => text_of_parts parts
  | None => EmptyString
  end.

Definition audio_of_turn (sc : Gemini.ServerContent) : list bytes :=
  match Gemini.model_turn sc with
  | Some parts => Gemini.audio_of_parts parts
  | None => []
  end.

(* ===================================================================== *)
(** * [main.py]: the [run] command *)
(* ===================================================================== *)

Module Main.

(** The options of the command, lines 24-40.  [level_is_int] is the
    outcome of the test of line 46 on [log_level]. *)
Record Options : Type := {
  input_device : option string;
  output_device : option string;
  input_sample_rate : N;
  output_sample_rate : N;
  level_is_int : bool;
  list_devices : bool;
  use_blackhole : bool
}.

(** The truth value of an optional string: [None] and the empty string
    are falsy. *)
Definition truthy (s : option string) : bool :=
  match s with
  | Some (String _ _) => true
  | Some EmptyString | None => false
  end.

Section WithTranscriber.
Context {T : Type}.

(** The translator with the two device attributes the command assigns
    (lines 34-35 of [translator.py]: both start as [None]). *)
Record Configured : Type := {
  translator : Translator.t T;
  translator_input_device : option string;
  translator_output_device : option string
}.

Inductive Outcome : Type :=
| RaisesValueError
| ListsDevices
| NoOutputDevice
| Runs (c : Configured).

(** Lines 78-79: the two assignments on the constructed translator. *)
Definition set_rates (a : Translator.t T) (input_rate output_rate : N)
  : Translator.t T :=
  Translator.mk input_rate output_rate (Translator.channels a)
    (Translator.recorder a) (Translator.player a) (Translator.transcriber a)
    (Translator.recording_buffer a) (Translator.running a)
    (Translator.files a) (Translator.trace a) (Translator.log a).

(** Lines 44-84.  [default_output] is what [get_default_output_device]
    returns; [tr] is the transcriber [AudioTranslator()] creates. *)
Definition run (o : Options) (default_output : option string) (tr : T)
  : Outcome :=
  if negb (level_is_int o) then RaisesValueError
  else if list_devices o then ListsDevices
  else
    let a := Translator.init tr in
    let dev_in := if truthy (input_device o) then input_device o else None in
    let chosen :=
      if use_blackhole o then Some (Some "BlackHole 2ch"%string)
      else if truthy (output_device o) then Some (output_device o)
      else if truthy default_output then Some default_output
      else None in
    match chosen with
    | None => NoOutputDevice
    | Some dev_out =>
        Runs {| translator := set_rates a (input_sample_rate o)
                                (output_sample_rate o);
                translator_input_device := dev_in;
                translator_output_device := dev_out |}
    end.

End WithTranscriber.

Arguments Configured T : clear implicits.
Arguments Outcome T : clear implicits.

End Main.


(* ===================================================================== *)
(** * Properties of the playback callback *)
(* ===================================================================== *)

Section PlaybackFacts.
Import Playback.

Lemma length_zeros (n : nat) : length (zeros n) = n.
Proof. unfold zeros. apply repeat_length. Qed.

(** When the refill step leaves at least [required] bytes in the buffer,
    exactly [required] bytes are written. *)
Lemma callback_writes_prefix cfg st frames pull buf :
  refill st (required_bytes cfg frames) pull = Ok buf ->
  callback cfg st frames pull =
    ({| buffer := skipn (required_bytes cfg frames) buf; done := done st |},
     Wrote (firstn (required_bytes cfg frames) buf), []).
Proof. intros E. unfold callback. now rewrite E. Qed.

Lemma refill_enough st required pull :
  required <= length (buffer st) -> refill st required pull = Ok (buffer st).
Proof.
  intros Hle. unfold refill.
  destruct (Nat.ltb_spec (length (buffer st)) required); [lia | reflexivity].
Qed.

Lemma refill_padded st required :
  length (buffer st) < required ->
  (done st && (length (buffer st) =? 0)) = false ->
  refill st required PullFailed =
    Ok (buffer st ++ zeros (required - length (buffer st))).
Proof.
  intros Hlt Hgo. unfold refill.
  destruct (Nat.ltb_spec (length (buffer st)) required); [| lia].
  now rewrite Hgo.
Qed.

Lemma refill_stop st required :
  length (buffer st) < required ->
  (done st && (length (buffer st) =? 0)) = true ->
  refill st required PullFailed = Raise CallbackStop.
Proof.
  intros Hlt Hgo. unfold refill.
  destruct (Nat.ltb_spec (length (buffer st)) required); [| lia].
  now rewrite Hgo.
Qed.

Lemma stop_condition_iff st :
  (done st && (length (buffer st) =? 0)) = true <->
  done st = true /\ buffer st = [].
Proof.
  rewrite andb_true_iff, Nat.eqb_eq. split; intros [Hd Hb]; split; auto.
  - now apply length_zero_iff_nil.
  - now rewrite Hb.
Qed.

(** C1, as the specification states it, fails on the stop path: with the
    end-of-stream signal raised, an empty buffer and a pull that times out,
    a request for 2400 frames (4800 bytes) is answered by [CallbackStop]
    and no byte is written. *)
Lemma playback_stop_path_writes_nothing :
  let cfg := {| channels := 1; itemsize := 2 |} in
  let st := {| buffer := []; done := true |} in
  let env := {| env_thread := LoopThread; env_pull := PullFailed;
                env_write_ok := true |} in
  let r := invoke cfg st 2400 env in
  required_bytes cfg 2400 = 4800 /\
  r = callback cfg st 2400 PullFailed /\
  outcome_of r = Stopped /\
  length (emitted (outcome_of r)) <> required_bytes cfg 2400.
Proof. vm_compute. repeat split. discriminate. Qed.

(** Once the loop is obtained and as long as the write returns, a whole
    invocation is [callback]. *)
Lemma invoke_returns cfg st frames env :
  env_returns env ->
  invoke cfg st frames env = callback cfg st frames (env_pull env).
Proof.
  intros [Hloop Hwrite]. unfold invoke, callback.
  rewrite Hloop, Hwrite.
  destruct (refill st (required_bytes cfg frames) (env_pull env)); reflexivity.
Qed.

(** C1 (amended): in an invocation in which the event loop is obtained
    and the write to the device returns, a callback requesting
    R = frames x channels x sample_width bytes writes exactly R bytes
    whenever the buffer already held R bytes, or the pull failed and the
    stream is not being stopped (the shortfall is padded with zero bytes),
    or a frame was pulled that brings the buffer to at least R bytes; when
    the pull fails with end-of-stream raised and the buffer empty, nothing
    is written and the stream is stopped. *)
Theorem playback_emits_required_bytes cfg st frames env :
  let required := required_bytes cfg frames in
  let r := invoke cfg st frames env in
  (env_returns env ->
   required <= length (buffer st)
   \/ (env_pull env = PullFailed /\ ~ (done st = true /\ buffer st = []))
   \/ (exists frame, env_pull env = Pulled frame /\
                     required <= length (buffer st) + length frame) ->
   exists out, outcome_of r = Wrote out /\ length out = required)
  /\
  (length (buffer st) < required -> env_pull env = PullFailed ->
   done st = true -> buffer st = [] ->
   outcome_of r = Stopped /\ emitted (outcome_of r) = []
   /\ state_of r = st).
Proof.
  intros required r. subst r. split.
  - intros Hret Hcase. rewrite (invoke_returns _ _ _ _ Hret).
    assert (Hbuf : exists buf, refill st required (env_pull env) = Ok buf
                               /\ required <= length buf).
    { destruct (Nat.le_gt_cases required (length (buffer st))) as [Hle | Hlt].
      - exists (buffer st). split; [now apply refill_enough | exact Hle].
      - destruct Hcase as [Hle | [[Hp Hns] | [frame [Hp Hlen]]]].
        + lia.
        + rewrite Hp.
          exists (buffer st ++ zeros (required - length (buffer st))). split.
          * apply refill_padded; [exact Hlt |].
            destruct (done st && (length (buffer st) =? 0)) eqn:E; [| reflexivity].
            apply stop_condition_iff in E. contradiction.
          * rewrite length_app, length_zeros. lia.
        + rewrite Hp. exists (buffer st ++ frame). split.
          * unfold refill.
            destruct (Nat.ltb_spec (length (buffer st)) required); [reflexivity | lia].
          * rewrite length_app. exact Hlen. }
    destruct Hbuf as [buf [E Hlen]].
    unfold required in E. rewrite (callback_writes_prefix _ _ _ _ _ E).
    eexists. split; [reflexivity |].
    rewrite length_firstn. fold required. lia.
  - intros Hlt Hp Hd Hb.
    unfold invoke. fold required. rewrite Hp.
    destruct (get_event_loop (env_thread env)); [| repeat split].
    rewrite refill_stop; [repeat split | exact Hlt |].
    apply stop_condition_iff. now split.
Qed.

Lemma playback_emits_required_bytes_witness :
  let cfg := {| channels := 1; itemsize := 2 |} in
  let st := {| buffer := [x01; x02; x03]; done := true |} in
  let env := {| env_thread := LoopThread; env_pull := PullFailed;
                env_write_ok := true |} in
  exists out,
    outcome_of (invoke cfg st 4 env) = Wrote out /\ length out = 8.
Proof.
  intros cfg st env.
  apply (proj1 (playback_emits_required_bytes cfg st 4 env)).
  - split; reflexivity.
  - right. left. split; [reflexivity |].
    intros [_ Hb]. discriminate Hb.
Defined.



(** ** Successive periods *)

Lemma callback_exact_or_stop cfg st frames pull :
  long_enough cfg (frames, pull) ->
  exact_or_stop cfg (frames, pull) (outcome_of (callback cfg st frames pull)).
Proof.
  unfold long_enough, exact_or_stop; cbn [fst snd]. intros Hlong.
  unfold callback, refill.
  destruct (Nat.ltb_spec (length (buffer st)) (required_bytes cfg frames))
    as [Hlt | Hge].
  - destruct pull as [frame |].
    + cbn [outcome_of fst snd]. rewrite length_firstn, length_app. lia.
    + destruct (done st && (length (buffer st) =? 0)); cbn [outcome_of fst snd].
      * exact I.
      * rewrite length_firstn, length_app, length_zeros. lia.
  - cbn [outcome_of fst snd]. rewrite length_firstn. lia.
Qed.

(** As long as no pulled frame is shorter than the request, every period
    of a run is answered by exactly the requested bytes, up to the period
    that stops the stream. *)
Lemma run_exact_or_stop cfg (periods : list (nat * Pull)) :
  forall st,
    Forall (long_enough cfg) periods ->
    Forall2 (exact_or_stop cfg)
            (firstn (length (snd (run cfg st periods))) periods)
            (snd (run cfg st periods)).
Proof.
  induction periods as [| [frames pull] rest IH]; intros st Hall.
  - constructor.
  - inversion Hall as [| p ps Hp Hps]; subst.
    pose proof (callback_exact_or_stop cfg st frames pull Hp) as Hone.
    cbn [run].
    destruct (callback cfg st frames pull) as [[st' o] lg].
    cbn [outcome_of fst snd] in Hone.
    destruct o as [out |].
    + specialize (IH st' Hps).
      destruct (run cfg st' rest) as [st'' os]. cbn [snd length firstn] in *.
      constructor; assumption.
    + cbn [snd length firstn]. constructor; [exact I | constructor].
Qed.

Example playback_two_frames_then_silence :
  let cfg := {| channels := 1; itemsize := 2 |} in
  snd (run cfg {| buffer := []; done := false |}
         [(2, Pulled [x01; x02; x03; x04]);
          (2, Pulled [x05; x06; x07; x08]);
          (2, PullFailed)]) =
  [Wrote [x01; x02; x03; x04]; Wrote [x05; x06; x07; x08];
   Wrote [x00; x00; x00; x00]].
Proof. reflexivity. Qed.

Example playback_short_frame :
  let cfg := {| channels := 1; itemsize := 2 |} in
  outcome_of (callback cfg {| buffer := []; done := false |} 2
                (Pulled [x01; x02])) = Wrote [x01; x02].
Proof. reflexivity. Qed.

End PlaybackFacts.

(* ===================================================================== *)
(** * Properties of the capture hand-off *)
(* ===================================================================== *)

Section CaptureFacts.
Import Capture.

Lemma capture_run_snoc evs e : run (evs ++ [e]) = step (run evs) e.
Proof. unfold run. now rewrite fold_left_app. Qed.

Lemma captured_app evs evs' :
  captured (evs ++ evs') = captured evs ++ captured evs'.
Proof.
  induction evs as [| e evs IH]; [reflexivity |].
  destruct e; cbn [app captured]; now rewrite IH.
Qed.

Lemma registered_app evs evs' :
  registered (evs ++ evs') = registered evs ++ registered evs'.
Proof.
  induction evs as [| e evs IH]; [reflexivity |].
  destruct e as [th indata | |]; cbn [app registered]; rewrite IH;
    [destruct (get_event_loop th) |..]; reflexivity.
Qed.

Lemma unregistered_app evs evs' :
  unregistered (evs ++ evs') = unregistered evs ++ unregistered evs'.
Proof.
  induction evs as [| e evs IH]; [reflexivity |].
  destruct e as [th indata | |]; cbn [app unregistered]; rewrite IH;
    [destruct (get_event_loop th) |..]; reflexivity.
Qed.

(** An unbounded queue is never full, so [put_nowait] always stores. *)
Lemma put_nowait_unbounded {A : Type} (q : AsyncQueue.t A) (x : A) :
  AsyncQueue.maxsize q = 0 ->
  AsyncQueue.put_nowait q x =
    Ok (AsyncQueue.mk 0 (AsyncQueue.items q ++ [x])
                      (S (AsyncQueue.unfinished_tasks q))).
Proof.
  intros Hm. unfold AsyncQueue.put_nowait, AsyncQueue.full.
  now rewrite Hm.
Qed.

Lemma capture_inv_run evs : capture_inv evs (run evs).
Proof.
  induction evs as [| e evs IH] using rev_ind.
  - repeat split.
  - rewrite capture_run_snoc. unfold capture_inv in *.
    rewrite registered_app, unregistered_app.
    destruct IH as [Hm [Hl Hc]]. rewrite <- Hc, <- Hl.
    destruct e as [th indata | |]; cbn [step registered unregistered].
    + unfold callback.
      destruct (get_event_loop th); cbn [queue lost yielded ready].
      * repeat split; auto; [now rewrite app_nil_r |].
        now rewrite <- !app_assoc.
      * repeat split; auto. now rewrite app_nil_r.
    + unfold run_handle.
      destruct (ready (run evs)) as [| frame rest] eqn:Er.
      * rewrite Er. repeat split; auto; now rewrite !app_nil_r.
      * rewrite (put_nowait_unbounded _ _ Hm).
        cbn [queue lost yielded ready AsyncQueue.maxsize AsyncQueue.items].
        repeat split; auto; [now rewrite app_nil_r |].
        rewrite app_nil_r, <- !app_assoc. reflexivity.
    + unfold consume, AsyncQueue.get_nowait.
      destruct (AsyncQueue.items (queue (run evs))) as [| frame rest] eqn:Ei.
      * rewrite Ei. repeat split; auto; now rewrite !app_nil_r.
      * cbn [queue lost yielded ready AsyncQueue.maxsize AsyncQueue.items].
        repeat split; auto; [now rewrite app_nil_r |].
        rewrite app_nil_r, <- !app_assoc. reflexivity.
Qed.




End CaptureFacts.

(* ===================================================================== *)
(** * Properties of [QueueIterator] *)
(* ===================================================================== *)

Section QueueIteratorFacts.
Import QueueIterator.
Context {A : Type}.

Lemma anext_cons (q : @queue A) item rest :
  AsyncQueue.wf q ->
  AsyncQueue.items q = item :: rest ->
  anext q =
    Some (answer_for item,
          AsyncQueue.mk (AsyncQueue.maxsize q) rest
                        (pred (AsyncQueue.unfinished_tasks q))).
Proof.
  intros Hwf Hi. unfold anext, AsyncQueue.get_nowait. rewrite Hi.
  unfold AsyncQueue.wf, AsyncQueue.qsize in Hwf. rewrite Hi in Hwf.
  cbn [length] in Hwf.
  unfold AsyncQueue.task_done; cbn [AsyncQueue.unfinished_tasks].
  destruct (AsyncQueue.unfinished_tasks q) as [| n]; [lia |].
  destruct item; reflexivity.
Qed.

Lemma anext_empty (q : @queue A) :
  AsyncQueue.items q = [] -> anext q = None.
Proof. intros Hi. unfold anext, AsyncQueue.get_nowait. now rewrite Hi. Qed.

Lemma async_for_enough_fuel (l : list (option A)) :
  forall (q : @queue A) fuel,
    AsyncQueue.items q = l -> AsyncQueue.wf q -> length l < fuel ->
    exists q',
      async_for fuel q =
        (frames_before_none l,
         if has_none l then Exhausted else Waiting,
         q').
Proof.
  induction l as [| item rest IH]; intros q fuel Hi Hwf Hf.
  - destruct fuel as [| f]; [cbn in Hf; lia |].
    cbn [async_for]. rewrite (anext_empty q Hi). now exists q.
  - destruct fuel as [| f]; [cbn in Hf; lia |].
    cbn [async_for]. rewrite (anext_cons q item rest Hwf Hi).
    destruct item as [x |]; cbn [answer_for frames_before_none has_none].
    + set (q1 := AsyncQueue.mk _ rest _).
      destruct (IH q1 f) as [q' E].
      * reflexivity.
      * unfold AsyncQueue.wf, AsyncQueue.qsize in *. rewrite Hi in Hwf.
        subst q1; cbn [AsyncQueue.items AsyncQueue.unfinished_tasks length] in *.
        lia.
      * cbn [length] in Hf. lia.
      * rewrite E. now exists q'.
    + eexists. reflexivity.
Qed.

Lemma has_none_In (l : list (option A)) :
  has_none l = true <-> In None l.
Proof.
  induction l as [| [x |] rest IH]; cbn [has_none In].
  - split; [discriminate | contradiction].
  - rewrite IH. split; [now right | intros [Hc | Hin]; [discriminate | exact Hin]].
  - split; [now left | reflexivity].
Qed.

(** The frame at position [i] is among those before the first [None]
    exactly when no [None] sits at a smaller position. *)
Lemma frames_before_none_nth (l : list (option A)) :
  forall i x,
    nth_error l i = Some (Some x) ->
    (nth_error (frames_before_none l) i = Some x <->
     forall j, j < i -> nth_error l j <> Some None).
Proof.
  induction l as [| [y |] rest IH]; intros i x Hi.
  - destruct i; discriminate Hi.
  - destruct i as [| i]; cbn [nth_error frames_before_none] in *.
    + split; [intros _ j Hj; lia | intros _; congruence].
    + rewrite (IH i x Hi). split; intros Hall j Hj.
      * destruct j as [| j]; cbn [nth_error]; [discriminate |].
        apply Hall. lia.
      * apply (Hall (S j)). lia.
  - destruct i as [| i]; cbn [nth_error frames_before_none] in *.
    + discriminate Hi.
    + split; [destruct i; discriminate |].
      intros Hall. exfalso. apply (Hall 0); [lia | reflexivity].
Qed.

(** C8: a single [__anext__] call returns the dequeued item exactly when
    it is not [None] and raises [StopAsyncIteration] exactly when it is;
    so a [None] in the playback input queue ends the frame sequence that
    [play] consumes, and the frame at any position is delivered to the
    consumer if and only if no [None] precedes it in the queue. *)
Theorem queue_iterator_stops_at_none (q : @queue A) :
  AsyncQueue.wf q ->
  (forall item rest,
      AsyncQueue.items q = item :: rest ->
      exists q',
        anext q = Some (answer_for item, q')
        /\ AsyncQueue.items q' = rest /\ AsyncQueue.wf q')
  /\ (forall item : option A,
        answer_for item = Raise StopAsyncIteration <-> item = None)
  /\ (In None (AsyncQueue.items q) -> snd (fst (consume q)) = Exhausted)
  /\ (~ In None (AsyncQueue.items q) -> snd (fst (consume q)) = Waiting)
  /\ (forall i x,
        nth_error (AsyncQueue.items q) i = Some (Some x) ->
        (nth_error (fst (fst (consume q))) i = Some x <->
         forall j, j < i -> nth_error (AsyncQueue.items q) j <> Some None)).
Proof.
  intros Hwf.
  destruct (async_for_enough_fuel (AsyncQueue.items q) q
              (S (AsyncQueue.qsize q)) eq_refl Hwf) as [q' E].
  { unfold AsyncQueue.qsize. lia. }
  fold (consume q) in E.
  split; [| split; [| split; [| split]]].
  - intros item rest Hi. eexists. split; [apply anext_cons; eassumption |].
    split; [reflexivity |].
    unfold AsyncQueue.wf, AsyncQueue.qsize in *. rewrite Hi in Hwf.
    cbn [AsyncQueue.items AsyncQueue.unfinished_tasks length] in *. lia.
  - intros [x |]; cbn [answer_for]; split; try discriminate; reflexivity.
  - intros Hin. rewrite E. cbn [fst snd].
    apply has_none_In in Hin. now rewrite Hin.
  - intros Hnin. rewrite E. cbn [fst snd].
    destruct (has_none (AsyncQueue.items q)) eqn:Eh; [| reflexivity].
    apply has_none_In in Eh. contradiction.
  - intros i x Hi. rewrite E. cbn [fst snd].
    now apply frames_before_none_nth.
Qed.

End QueueIteratorFacts.

Lemma queue_iterator_stops_at_none_witness :
  let q : @QueueIterator.queue nat := AsyncQueue.mk 0 [Some 1; Some 2; None; Some 3] 4 in
  fst (fst (QueueIterator.consume q)) = [1; 2] /\ snd (fst (QueueIterator.consume q)) = QueueIterator.Exhausted.
Proof.
  intros q.
  assert (Hwf : AsyncQueue.wf q) by (unfold AsyncQueue.wf; cbn; lia).
  destruct (queue_iterator_stops_at_none q Hwf) as [_ [_ [Hex _]]].
  split; [reflexivity |].
  apply Hex. cbn. right. right. now left.
Defined.

(* ===================================================================== *)
(** * Properties of [GeminiTranscriber] *)
(* ===================================================================== *)

Section GeminiFacts.
Import Gemini.


(** C9: [transcribe_audio] is total at the public interface: for every
    frame and whatever the enqueue does, it returns [None] and raises
    nothing; when the outbound queue already holds 50 or more items, or
    the enqueue times out, the frame is not enqueued, a warning is logged
    and the call still returns [None]. *)
Theorem transcribe_audio_total (g : t) (data : bytes) (env : PutOutcome) :
  let r := transcribe_audio g data env in
  snd r = Ok tt
  /\ (50 <= AsyncQueue.qsize (audio_out g) ->
      audio_out (fst r) = audio_out g
      /\ log (fst r) = log g ++ [LogWarning "audio queue full, frame dropped"])
  /\ (AsyncQueue.qsize (audio_out g) < 50 -> env = PutTimeout ->
      audio_out (fst r) = audio_out g
      /\ log (fst r) = log g ++ [LogWarning "audio queue put timed out"]).
Proof.
  intros r. subst r. unfold transcribe_audio, transcribe_body.
  set (g1 := match session_task g with
             | None => set_session_task (Some Scheduled) g
             | Some _ => g
             end).
  assert (Hout : audio_out g1 = audio_out g)
    by (subst g1; destruct (session_task g); reflexivity).
  assert (Hlog : log g1 = log g)
    by (subst g1; destruct (session_task g); reflexivity).
  rewrite Hout.
  destruct (Nat.leb_spec 50 (AsyncQueue.qsize (audio_out g))) as [Hfull | Hroom].
  - cbn [fst snd audio_out log add_log]. rewrite Hout, Hlog.
    repeat split; intros; try lia; reflexivity.
  - destruct env.
    + destruct (AsyncQueue.put_nowait (audio_out g) data);
        cbn [fst snd]; repeat split; intros; try lia; discriminate.
    + cbn [fst snd audio_out log add_log]. rewrite Hout, Hlog.
      repeat split; intros; try lia; reflexivity.
    + cbn [fst snd]. repeat split; intros; try lia; discriminate.
Qed.

Lemma transcribe_audio_total_witness :
  let g := set_audio_out (AsyncQueue.mk 50 (repeat [x00] 50) 50) init in
  audio_out (fst (transcribe_audio g [x01; x02] PutDone)) = audio_out g.
Proof.
  intros g.
  destruct (transcribe_audio_total g [x01; x02] PutDone) as [_ [Hfull _]].
  apply Hfull. vm_compute. lia.
Defined.

(** ** Turn boundaries *)

Lemma put_unbounded_items {A : Type} (q : AsyncQueue.t A) (x : A) :
  AsyncQueue.maxsize q = 0 ->
  AsyncQueue.items (put_unbounded q x) = AsyncQueue.items q ++ [x]
  /\ AsyncQueue.maxsize (put_unbounded q x) = 0.
Proof.
  intros Hm. unfold put_unbounded, AsyncQueue.put_nowait, AsyncQueue.full.
  rewrite Hm. cbn. now split.
Qed.

Lemma handle_parts_audio_in (parts : list Part) :
  forall g,
    AsyncQueue.maxsize (audio_in g) = 0 ->
    AsyncQueue.items (audio_in (start_session_parts g parts)) =
      AsyncQueue.items (audio_in g) ++ map Some (audio_of_parts parts)
    /\ AsyncQueue.maxsize (audio_in (start_session_parts g parts)) = 0.
Proof.
  induction parts as [| p rest IH]; intros g Hm; cbn [start_session_parts audio_of_parts map].
  - now rewrite app_nil_r.
  - destruct (text p) as [s |].
    + destruct (IH (set_full_text (String.append (full_text g) s) g) Hm)
        as [Hi Hm'].
      split; [exact Hi | exact Hm'].
    + destruct (inline_data p) as [data |].
      * destruct (put_unbounded_items (audio_in g) (Some data) Hm) as [Hi Hm'].
        destruct (IH (set_audio_in (put_unbounded (audio_in g) (Some data)) g))
          as [Hi2 Hm2]; [exact Hm' |].
        split; [| exact Hm2].
        rewrite Hi2. cbn [audio_in set_audio_in map]. rewrite Hi.
        now rewrite <- app_assoc.
      * now apply IH.
Qed.

Lemma handle_turn_complete_audio_in g :
  AsyncQueue.maxsize (audio_in g) = 0 ->
  AsyncQueue.items (audio_in (start_session_turn_complete g)) =
    AsyncQueue.items (audio_in g) ++ [None].
Proof.
  intros Hm. unfold start_session_turn_complete.
  cbn [audio_in set_audio_in].
  destruct (full_text _);
    cbn [audio_in set_audio_in set_full_text add_log set_result_queue];
    now apply put_unbounded_items.
Qed.

(** C2, as the specification states it, fails: with three reply frames
    queued towards the playback engine, handling the turn-complete marker
    discards none of them; they stay queued, followed by [None]. *)
Lemma turn_complete_keeps_queued_frames :
  let g := run init [Transcribe [x00; x00] PutDone; SessionTaskRuns true;
                     Receives (audio_response [x01; x00]);
                     Receives (audio_response [x02; x00]);
                     Receives (audio_response [x03; x00])] in
  let g' := start_session_response g turn_complete_marker in
  AsyncQueue.items (audio_in g) =
    [Some [x01; x00]; Some [x02; x00]; Some [x03; x00]]
  /\ AsyncQueue.items (audio_in g') =
       [Some [x01; x00]; Some [x02; x00]; Some [x03; x00]; None]
  /\ ~ (forall frame, In (Some frame) (AsyncQueue.items (audio_in g)) ->
                      ~ In (Some frame) (AsyncQueue.items (audio_in g'))).
Proof.
  cbv zeta. split; [reflexivity | split; [reflexivity |]].
  intros Hall. apply (Hall [x01; x00]); cbn; now left.
Qed.

(** C2 (amended): when the Transcription Link signals turn complete while
    K unplayed reply frames are queued towards the Playback Engine, none
    of them is discarded: the K frames stay queued in order, followed by
    the audio of the same message and by a [None] end marker, for every
    K >= 0. *)
Theorem turn_complete_appends_marker (g : t) (sc : ServerContent) :
  session_task g = Some Running ->
  AsyncQueue.maxsize (audio_in g) = 0 ->
  turn_complete sc = true ->
  AsyncQueue.items
    (audio_in (start_session_response g {| server_content := Some sc |})) =
  AsyncQueue.items (audio_in g)
    ++ map Some (match model_turn sc with
                 | Some parts => audio_of_parts parts
                 | None => []
                 end)
    ++ [None].
Proof.
  intros Hrun Hm Htc. unfold start_session_response. rewrite Hrun.
  cbn [server_content]. rewrite Htc.
  destruct (model_turn sc) as [parts |].
  - destruct (handle_parts_audio_in parts g Hm) as [Hi Hm'].
    rewrite (handle_turn_complete_audio_in _ Hm'), Hi.
    now rewrite <- app_assoc.
  - rewrite (handle_turn_complete_audio_in _ Hm). reflexivity.
Qed.

Lemma turn_complete_appends_marker_witness :
  let g := run init [Transcribe [x00; x00] PutDone; SessionTaskRuns true;
                     Receives (audio_response [x01; x00])] in
  AsyncQueue.items (audio_in (start_session_response g turn_complete_marker)) =
    [Some [x01; x00]; None].
Proof.
  intros g.
  apply (turn_complete_appends_marker g
           {| model_turn := None; turn_complete := true |});
    reflexivity.
Defined.

End GeminiFacts.

(* ===================================================================== *)
(** * The link after a failure *)
(* ===================================================================== *)

Section LinkFailureFacts.
Import Gemini.

Lemma transcribe_audio_keeps_session g data env :
  session_task g <> None ->
  session_task (fst (transcribe_audio g data env)) = session_task g
  /\ connects (fst (transcribe_audio g data env)) = connects g
  /\ session (fst (transcribe_audio g data env)) = session g.
Proof.
  intros Hst. unfold transcribe_audio, transcribe_body.
  destruct (session_task g) as [s |] eqn:Es; [| congruence].
  destruct (50 <=? AsyncQueue.qsize (audio_out g)).
  - cbn. now rewrite Es.
  - destruct env; [destruct (AsyncQueue.put_nowait (audio_out g) data) | |];
      cbn; now rewrite Es.
Qed.

Lemma send_step_keeps_session g ok :
  session_task (send_audio_step g ok) = session_task g
  /\ connects (send_audio_step g ok) = connects g
  /\ session (send_audio_step g ok) = session g.
Proof.
  destruct g as [ses sendt sest ain aout rq ft cn cl cx st lg].
  unfold send_audio_step; cbn [send_task audio_out].
  destruct sendt as [[] |]; try (repeat split; reflexivity);
    (destruct (AsyncQueue.get_nowait aout) as [[data q] | e];
     [ destruct ses; [destruct ok |]; repeat split; reflexivity
     | repeat split; reflexivity ]).
Qed.

(** Once the session task has ended, no event other than a call of
    [stop_session] lets it run again: no new connection is opened and the
    [session] attribute keeps its value. *)
Lemma step_link_down g e :
  link_down g -> is_stop e = false ->
  link_down (step g e)
  /\ connects (step g e) = connects g
  /\ session (step g e) = session g.
Proof.
  intros Hd Hs.
  assert (Hne : session_task g <> None)
    by (destruct Hd as [H | H]; rewrite H; discriminate).
  destruct e as [data env | ok | r | | ok | ok |]; cbn [step].
  - destruct (transcribe_audio_keeps_session g data env Hne) as [E1 [E2 E3]].
    unfold link_down. rewrite E1. auto.
  - unfold start_session_enter.
    destruct Hd as [H | H]; rewrite H; unfold link_down; rewrite H; auto.
  - unfold start_session_response.
    destruct Hd as [H | H]; rewrite H; unfold link_down; rewrite H; auto.
  - unfold start_session_next_round.
    destruct Hd as [H | H]; rewrite H; unfold link_down; rewrite H; auto.
  - unfold start_session_except.
    destruct Hd as [H | H]; rewrite H; unfold link_down; rewrite H; auto.
  - destruct (send_step_keeps_session g ok) as [E1 [E2 E3]].
    unfold link_down. rewrite E1. auto.
  - discriminate Hs.
Qed.


Lemma start_session_except_down g close_ok :
  session_task g = Some Running ->
  link_down (start_session_except g close_ok)
  /\ connects (start_session_except g close_ok) = connects g
  /\ (close_ok = true -> session (start_session_except g close_ok) = None)
  /\ In (LogError "receive error") (log (start_session_except g close_ok)).
Proof.
  destruct g as [ses sendt sest ain aout rq ft cn cl cx st lg].
  cbn [session_task]. intros Hrun. subst sest.
  unfold start_session_except, link_down; cbn [session_task session add_log].
  assert (Hin : In (LogError "receive error") (lg ++ [LogError "receive error"]))
    by (apply in_or_app; right; now left).
  destruct ses, close_ok; cbn; repeat split; auto; discriminate.
Qed.

Lemma transcribe_audio_keeps_sending g data env :
  session_task g <> None ->
  send_task (fst (transcribe_audio g data env)) = send_task g
  /\ sent (fst (transcribe_audio g data env)) = sent g.
Proof.
  intros Hst. unfold transcribe_audio, transcribe_body.
  destruct (session_task g) as [s |] eqn:Es; [| congruence].
  destruct (50 <=? AsyncQueue.qsize (audio_out g)).
  - cbn. now split.
  - destruct env; [destruct (AsyncQueue.put_nowait (audio_out g) data) | |];
      cbn; now split.
Qed.

Lemma start_session_parts_keeps (parts : list Part) :
  forall g,
    send_task (start_session_parts g parts) = send_task g
    /\ session_task (start_session_parts g parts) = session_task g
    /\ sent (start_session_parts g parts) = sent g
    /\ connects (start_session_parts g parts) = connects g.
Proof.
  induction parts as [| p rest IH]; intros g; cbn [start_session_parts].
  - repeat split.
  - destruct (text p) as [s |]; [| destruct (inline_data p) as [data |]];
      match goal with
      | |- context [start_session_parts ?g1 rest] =>
          destruct (IH g1) as [E1 [E2 [E3 E4]]];
          rewrite E1, E2, E3, E4; repeat split
      end.
Qed.

Lemma start_session_response_keeps g r :
  send_task (start_session_response g r) = send_task g
  /\ session_task (start_session_response g r) = session_task g
  /\ sent (start_session_response g r) = sent g
  /\ connects (start_session_response g r) = connects g.
Proof.
  unfold start_session_response.
  destruct (session_task g) as [[] |] eqn:Es; try (rewrite Es; repeat split).
  destruct (server_content r) as [sc |]; [| rewrite Es; repeat split].
  assert (Hparts : forall g1,
             g1 = match model_turn sc with
                  | Some parts => start_session_parts g parts
                  | None => g
                  end ->
             send_task g1 = send_task g /\ session_task g1 = session_task g
             /\ sent g1 = sent g /\ connects g1 = connects g).
  { intros g1 ->. destruct (model_turn sc) as [parts |].
    - apply start_session_parts_keeps.
    - repeat split. }
  destruct (Hparts _ eq_refl) as [E1 [E2 [E3 E4]]].
  destruct (turn_complete sc).
  - unfold start_session_turn_complete.
    destruct (full_text _); cbn; rewrite E1, E2, E3, E4, Es; repeat split.
  - rewrite E1, E2, E3, E4, Es. repeat split.
Qed.






End LinkFailureFacts.


(* ===================================================================== *)
(** * Properties of [AudioTranslator] *)
(* ===================================================================== *)

Section FrombufferFacts.
Import Translator.

Lemma frombuffer_pairs (n : nat) :
  forall data : bytes,
    length data = 2 * n ->
    exists arr, frombuffer data = Ok arr /\ length arr = n.
Proof.
  induction n as [| n IH]; intros data Hlen.
  - destruct data; [| discriminate Hlen]. now exists [].
  - destruct data as [| lo [| hi rest]]; cbn [length] in Hlen; try lia.
    destruct (IH rest) as [arr [E Hl]]; [lia |].
    exists (int16_of lo hi :: arr). cbn [frombuffer]. rewrite E.
    cbn [bind length]. now rewrite Hl.
Qed.

Example frombuffer_two_samples :
  frombuffer [xff; xff; x01; x00] = Ok [(-1)%Z; 1%Z].
Proof. reflexivity. Qed.

Example frombuffer_odd_length :
  frombuffer [xff; xff; x01] = Raise ValueError.
Proof. reflexivity. Qed.

Lemma frombuffer_whole_samples (data : bytes) :
  length data mod 2 = 0 -> exists arr, frombuffer data = Ok arr.
Proof.
  intros Hm.
  destruct (frombuffer_pairs (length data / 2) data) as [arr [E _]].
  - pose proof (Nat.div_mod_eq (length data) 2). lia.
  - now exists arr.
Qed.

End FrombufferFacts.

Section TranslatorFacts.
Import Translator.
Context {T : Type} `{Transcriber T}.

(** The fields [process_audio] does not touch, and how it extends the
    recording buffer. *)
Lemma process_audio_frame (a : Translator.t T) (data : bytes) (env : Env) :
  let a' := fst (process_audio a data env) in
  files a' = files a
  /\ input_sample_rate a' = input_sample_rate a
  /\ recorder a' = recorder a
  /\ running a' = running a
  /\ exists arrs,
       recording_buffer a' = recording_buffer a ++ arrs
       /\ appended_arrays (trace a') = appended_arrays (trace a) ++ arrs.
Proof.
  destruct a as [isr osr ch rec pl tr buf run fl trc lg].
  unfold process_audio, process_body.
  destruct (frombuffer data) as [arr | e].
  - cbn [transcriber add_effect set_recording_buffer].
    destruct (transcribe_audio tr data env) as [tr' [v | e]];
      cbn; repeat split; exists [arr]; split; try reflexivity.
    all: clear; induction trc as [| [x | x] trc IH]; cbn; congruence.
  - cbn. repeat split. exists []. now rewrite !app_nil_r.
Qed.

Lemma stop_fields (a : Translator.t T) :
  let a' := fst (stop a) in
  files a' = files a
  /\ input_sample_rate a' = input_sample_rate a
  /\ r_samplerate (recorder a') = r_samplerate (recorder a)
  /\ recording_buffer a' = recording_buffer a
  /\ trace a' = trace a
  /\ running a' = false.
Proof.
  destruct a as [isr osr ch rec pl tr buf run fl trc lg].
  unfold stop. cbn [transcriber set_player set_recorder set_running].
  destruct (stop_session tr) as [tr' r]. cbn. repeat split.
Qed.

Lemma capture_loop_fields (evs : list LoopEvent) :
  forall a : Translator.t T,
    let a' := capture_loop a evs in
    files a' = files a
    /\ input_sample_rate a' = input_sample_rate a
    /\ r_samplerate (recorder a') = r_samplerate (recorder a)
    /\ exists arrs,
         recording_buffer a' = recording_buffer a ++ arrs
         /\ appended_arrays (trace a') = appended_arrays (trace a) ++ arrs.
Proof.
  induction evs as [| e evs IH]; intros a; cbn zeta.
  - repeat split. exists []. now rewrite !app_nil_r.
  - destruct e as [data env | |]; cbn [capture_loop].
    + destruct (running a).
      * destruct (process_audio_frame a data env) as [Hf [Hr [Hrec [_ [arrs [Hb Ht]]]]]].
        destruct (IH (fst (process_audio a data env)))
          as [Hf' [Hr' [Hs' [arrs' [Hb' Ht']]]]].
        repeat split; try congruence.
        exists (arrs ++ arrs'). rewrite Hb', Ht', Hb, Ht.
        now rewrite !app_assoc.
      * repeat split. exists []. now rewrite !app_nil_r.
    + destruct (stop_fields a) as [Hf [Hr [Hs [Hb [Ht _]]]]].
      destruct (IH (fst (stop a))) as [Hf' [Hr' [Hs' [arrs' [Hb' Ht']]]]].
      repeat split; try congruence.
      exists arrs'. now rewrite Hb', Ht', Hb, Ht.
    + destruct a. cbn. repeat split. exists []. now rewrite !app_nil_r.
Qed.

(** What the flush writes. *)
Lemma flush_files (a : Translator.t T) (now : string) :
  recording_buffer (flush a now) = []
  /\ input_sample_rate (flush a now) = input_sample_rate a
  /\ recorder (flush a now) = recorder a
  /\ files (flush a now) =
       files a ++
       match concatenate (recording_buffer a) with
       | [] => []
       | x :: xs =>
           [{| filename := ("recordings" ++ "/" ++ "recording" ++ "_"
                              ++ now ++ ".wav")%string;
               rate := input_sample_rate a;
               samples := x :: xs |}]
       end.
Proof.
  destruct a as [isr osr ch rec pl tr buf run fl trc lg].
  unfold flush. cbn [recording_buffer].
  destruct buf as [| arr buf].
  - cbn. repeat split. now rewrite app_nil_r.
  - unfold save_wav.
    destruct (concatenate (arr :: buf)) as [| x xs]; cbn.
    + repeat split. now rewrite app_nil_r.
    + repeat split.
Qed.

End TranslatorFacts.

Section TranslatorClaims.
Import Translator.
Context {T : Type} `{Transcriber T}.

(** C10: for every captured frame (a whole number of 16-bit samples)
    processed by [process_audio], the frame is appended to the recording
    buffer before it is forwarded to the transcriber, and the append is
    kept when forwarding raises: the failure is logged, nothing is removed
    from the recording buffer, no exception leaves [process_audio], and
    the capture loop goes on with the next frame. *)
Theorem process_audio_records_then_forwards
    (a : Translator.t T) (data : bytes) (env : Env) :
  length data mod 2 = 0 ->
  let a' := fst (process_audio a data env) in
  exists arr,
    frombuffer data = Ok arr
    /\ snd (process_audio a data env) = Ok tt
    /\ recording_buffer a' = recording_buffer a ++ [arr]
    /\ trace a' = trace a ++ [Appended arr; Forwarded data]
    /\ transcriber a' = fst (transcribe_audio (transcriber a) data env)
    /\ (forall e, snd (transcribe_audio (transcriber a) data env) = Raise e ->
                  log a' = log a ++ [LogError "process audio error"])
    /\ running a' = running a
    /\ (forall rest, running a = true ->
                     capture_loop a (Frame data env :: rest) =
                     capture_loop a' rest).
Proof.
  intros Hlen a'.
  destruct (frombuffer_whole_samples data Hlen) as [arr E].
  exists arr. split; [exact E |].
  assert (Hloop : forall rest, running a = true ->
                    capture_loop a (Frame data env :: rest) =
                    capture_loop a' rest).
  { intros rest Hr. cbn [capture_loop]. now rewrite Hr. }
  subst a'. revert Hloop.
  destruct a as [isr osr ch rec pl tr buf run fl trc lg].
  unfold process_audio, process_body. rewrite E.
  cbn [transcriber add_effect set_recording_buffer].
  destruct (transcribe_audio tr data env) as [tr' [[] | e]];
    cbn; intros Hloop; repeat split; auto;
    try (now rewrite <- app_assoc); intros e0 He; discriminate He.
Qed.

(** X22: when the capture loop is left, the recording buffer, which holds
    every appended frame in order, is flushed exactly once: its
    concatenation is written as one PCM buffer to one file, at the rate
    held by [input_sample_rate], and the buffer is emptied, so that
    nothing is written again; when the buffer holds no samples, in
    particular when it is empty, no file is written. *)
Theorem recording_is_flushed_once
    (a : Translator.t T) (evs : list LoopEvent) (now : string) :
  let a1 := capture_loop a evs in
  let a2 := fst (start_streaming a evs now) in
  let pcm := concatenate (recording_buffer a1) in
  (exists arrs,
      recording_buffer a1 = recording_buffer a ++ arrs
      /\ appended_arrays (trace a1) = appended_arrays (trace a) ++ arrs)
  /\ recording_buffer a2 = []
  /\ (recording_buffer a1 = [] -> files a2 = files a)
  /\ (pcm = [] -> files a2 = files a)
  /\ (pcm <> [] ->
      files a2 = files a ++
                 [{| filename := "recordings/recording_" ++ now ++ ".wav";
                     rate := input_sample_rate a;
                     samples := pcm |}])
  /\ (forall now', files (fst (finally_block a2 now')) = files a2).
Proof.
  intros a1 a2 pcm.
  destruct (capture_loop_fields evs a) as [Hf [Hr [Hs Harrs]]].
  fold a1 in Hf, Hr, Hs, Harrs.
  destruct (flush_files a1 now) as [Hb1 [Hr1 [Hrec1 Hf1]]].
  destruct (stop_fields (flush a1 now)) as [Hf2 [Hr2 [Hs2 [Hb2 _]]]].
  assert (Ea2 : a2 = fst (stop (flush a1 now))) by reflexivity.
  rewrite <- Ea2 in Hf2, Hr2, Hs2, Hb2.
  assert (Hfiles : files a2 = files a ++
                     match pcm with
                     | [] => []
                     | x :: xs =>
                         [{| filename := "recordings/recording_" ++ now ++ ".wav";
                             rate := input_sample_rate a;
                             samples := x :: xs |}]
                     end).
  { rewrite Hf2, Hf1, Hf. fold pcm. destruct pcm; [reflexivity |].
    do 3 f_equal. exact Hr. }
  split; [exact Harrs |].
  split; [congruence |].
  split; [| split; [| split]].
  - intros Hempty. rewrite Hfiles. unfold pcm. rewrite Hempty. cbn.
    now rewrite app_nil_r.
  - intros Hp. rewrite Hfiles, Hp. now rewrite app_nil_r.
  - intros Hp. rewrite Hfiles. destruct pcm; [contradiction | reflexivity].
  - intros now'. unfold finally_block.
    destruct (stop_fields (flush a2 now')) as [Hf3 _]. rewrite Hf3.
    destruct (flush_files a2 now') as [_ [_ [_ Hf4]]]. rewrite Hf4.
    assert (Hb : recording_buffer a2 = []) by congruence.
    rewrite Hb. cbn. now rewrite app_nil_r.
Qed.

End TranslatorClaims.

Lemma process_audio_records_then_forwards_witness :
  let a := Translator.init ([] : list bytes) in
  let a' := fst (@Translator.process_audio _ flaky_transcriber a
                   [xff; xff; x01; x00] false) in
  exists arr,
    Translator.frombuffer [xff; xff; x01; x00] = Ok arr
    /\ Translator.recording_buffer a' = [arr].
Proof.
  intros a a'.
  destruct (@process_audio_records_then_forwards _ flaky_transcriber a
              [xff; xff; x01; x00] false)
    as [arr [E [_ [Hb _]]]].
  - reflexivity.
  - exists arr. split; [exact E | exact Hb].
Defined.

Lemma recording_is_flushed_once_witness :
  let a := Translator.init Gemini.init in
  let evs := [@Translator.Frame _ gemini_transcriber
                 [xff; xff; x01; x00] Gemini.PutDone;
              @Translator.Frame _ gemini_transcriber
                 [x02; x00] Gemini.PutDone;
              Translator.StopCalled] in
  Translator.files
    (fst (Translator.start_streaming a evs "20240101_000000")) =
  [{| Translator.filename := "recordings/recording_20240101_000000.wav";
      Translator.rate := 16000%N;
      Translator.samples := [(-1)%Z; 1%Z; 2%Z] |}].
Proof.
  intros a evs.
  destruct (recording_is_flushed_once a evs "20240101_000000")
    as [_ [_ [_ [_ [Hfile _]]]]].
  rewrite Hfile; [reflexivity | discriminate].
Defined.

(** C5 (the failing input): the command run with [--input-rate 44100]
    builds the translator, whose recorder is constructed for 16000 Hz,
    and only then assigns 44100 to [input_sample_rate]; the three samples
    captured by that recorder are then written to the recording file
    with the rate 44100, which is not the capture sample rate. *)
Theorem recording_rate_is_not_the_capture_rate :
  let o := {| Main.input_device := None; Main.output_device := None;
              Main.input_sample_rate := 44100%N;
              Main.output_sample_rate := 24000%N;
              Main.level_is_int := true; Main.list_devices := false;
              Main.use_blackhole := true |} in
  let evs := [@Translator.Frame _ gemini_transcriber
                 [xff; xff; x01; x00] Gemini.PutDone;
              @Translator.Frame _ gemini_transcriber
                 [x02; x00] Gemini.PutDone;
              Translator.StopCalled] in
  exists c,
    Main.run o None Gemini.init = Main.Runs c
    /\ Translator.r_samplerate (Translator.recorder (Main.translator c))
       = 16000%N
    /\ Translator.files
         (fst (Translator.start_streaming (Main.translator c) evs
                 "20240101_000000")) =
       [{| Translator.filename := "recordings/recording_20240101_000000.wav";
           Translator.rate := 44100%N;
           Translator.samples := [(-1)%Z; 1%Z; 2%Z] |}].
Proof.
  intros o evs. eexists. split; [reflexivity |]. split; reflexivity.
Qed.

Section StopFacts.
Import Translator.



Lemma stop_unfold {T : Type} `{Transcriber T} (a : Translator.t T) :
  stop a =
    (@Translator.mk T (input_sample_rate a) (output_sample_rate a) (channels a)
       (recorder_stop (recorder a)) (player_stop (player a))
       (fst (stop_session (transcriber a)))
       (recording_buffer a) false (files a) (trace a) (log a),
     snd (stop_session (transcriber a))).
Proof.
  destruct a as [isr osr ch rec pl tr buf run fl trc lg].
  unfold stop. cbn [transcriber set_player set_recorder set_running].
  destruct (stop_session tr) as [tr' r]. reflexivity.
Qed.

(** Awaiting a session task that ended with an exception raises it again,
    before [session_task] is reset and before the session is closed. *)
Lemma stop_session_failed_session_task (g : Gemini.t) :
  Gemini.session_task g = Some Gemini.Failed ->
  let g1 := fst (Gemini.stop_session g) in
  snd (Gemini.stop_session g) = Raise OtherError
  /\ Gemini.session_task g1 = Some Gemini.Failed
  /\ Gemini.session g1 = Gemini.session g
  /\ Gemini.closes g1 = Gemini.closes g
  /\ fst (Gemini.stop_session g1) = g1
  /\ snd (Gemini.stop_session g1) = Raise OtherError.
Proof.
  destruct g as [ses sendt sest ain aout rq ft cn cl cx st lg].
  cbn [Gemini.session_task]. intros Hs. subst sest.
  destruct sendt as [[] |]; cbn; repeat split.
Qed.

(** C7 (the failing inputs): when the session task has ended with an
    exception (the connection could not be opened, or [close()] raised in
    the handler of a receive error), [stop()] raises that exception, at
    the first invocation and at the second alike, and the link is never
    cleared: [running] is false, but the session task stays set, a
    session that was open stays set and is not closed, and the second
    invocation leaves the link as the first one left it. *)
Theorem stop_raises_and_leaves_the_link_set (a : Translator.t Gemini.t) :
  Gemini.session_task (transcriber a) = Some Gemini.Failed ->
  let a1 := fst (stop a) in
  snd (stop a) = Raise OtherError
  /\ running a1 = false
  /\ Gemini.session_task (transcriber a1) = Some Gemini.Failed
  /\ Gemini.session (transcriber a1) = Gemini.session (transcriber a)
  /\ Gemini.closes (transcriber a1) = Gemini.closes (transcriber a)
  /\ snd (stop a1) = Raise OtherError
  /\ transcriber (fst (stop a1)) = transcriber a1.
Proof.
  intros Hfailed a1.
  assert (E1 : a1 = fst (stop a)) by reflexivity.
  clearbody a1.
  rewrite stop_unfold in E1. cbn [fst] in E1.
  destruct (stop_session_failed_session_task (transcriber a) Hfailed)
    as [Hr [Hst [Hs [Hc [Hidem Hr2]]]]].
  change (@stop_session Gemini.t gemini_transcriber) with Gemini.stop_session in *.
  assert (Ht1 : transcriber a1 = fst (Gemini.stop_session (transcriber a)))
    by (rewrite E1; reflexivity).
  rewrite !stop_unfold. cbn [fst snd transcriber].
  change (@stop_session Gemini.t gemini_transcriber) with Gemini.stop_session.
  rewrite Ht1.
  split; [exact Hr |].
  split; [rewrite E1; reflexivity |].
  repeat split; assumption.
Qed.

Lemma stop_raises_and_leaves_the_link_set_witness :
  let g := Gemini.run Gemini.init
             [Gemini.Transcribe [x00; x00] Gemini.PutDone;
              Gemini.SessionTaskRuns false] in
  let a := Translator.init g in
  Gemini.session_task g = Some Gemini.Failed
  /\ snd (stop a) = Raise OtherError
  /\ Gemini.session_task (transcriber (fst (stop a))) = Some Gemini.Failed
  /\ snd (stop (fst (stop a))) = Raise OtherError.
Proof.
  intros g a.
  destruct (stop_raises_and_leaves_the_link_set a eq_refl)
    as [Hr [_ [Hst [_ [_ [Hr2 _]]]]]].
  split; [reflexivity |].
  split; [exact Hr |]. split; [exact Hst | exact Hr2].
Defined.

End StopFacts.

(* ===================================================================== *)
(** * Further properties of the playback callback *)
(* ===================================================================== *)

Section PlaybackMore.
Import Playback.

(** X1: a callback invocation that writes neither loses nor reorders
    audio: the bytes written, followed by the bytes left in the buffer,
    are the old buffer followed by what the refill step appended, which
    is nothing when the buffer already held the required bytes, the
    pulled frame when one was pulled, and the zero padding otherwise. *)
Theorem playback_callback_conserves_bytes cfg st frames pull out :
  outcome_of (callback cfg st frames pull) = Wrote out ->
  let required := required_bytes cfg frames in
  let supplied :=
    if length (buffer st) <? required then
      match pull with
      | Pulled frame => frame
      | PullFailed => zeros (required - length (buffer st))
      end
    else [] in
  out ++ buffer (state_of (callback cfg st frames pull)) = buffer st ++ supplied
  /\ done (state_of (callback cfg st frames pull)) = done st.
Proof.
  intros Hout required supplied. subst supplied.
  unfold callback, refill in *. fold required in Hout |- *.
  destruct (length (buffer st) <? required).
  - destruct pull as [frame |].
    + cbn [outcome_of state_of fst snd buffer done] in *.
      injection Hout as <-.
      split; [apply firstn_skipn | reflexivity].
    + destruct (done st && (length (buffer st) =? 0)).
      * discriminate Hout.
      * cbn [outcome_of state_of fst snd buffer done] in *.
        injection Hout as <-.
        split; [apply firstn_skipn | reflexivity].
  - cbn [outcome_of state_of fst snd buffer done] in *.
    injection Hout as <-.
    rewrite app_nil_r. split; [apply firstn_skipn | reflexivity].
Qed.

Lemma playback_callback_conserves_bytes_witness :
  let cfg := {| channels := 1; itemsize := 2 |} in
  let st := {| buffer := [x01; x02; x03]; done := false |} in
  let r := callback cfg st 2 (Pulled [x04; x05; x06]) in
  [x01; x02; x03; x04] ++ buffer (state_of r) =
  [x01; x02; x03] ++ [x04; x05; x06].
Proof.
  intros cfg st r.
  apply (proj1 (playback_callback_conserves_bytes cfg st 2
                  (Pulled [x04; x05; x06]) [x01; x02; x03; x04] eq_refl)).
Defined.

(** X2: the causes of a stop: an invocation answers [CallbackStop]
    exactly when [asyncio.get_event_loop()] raises (as it does in the
    thread of the stream), or [outdata.write] raises, or the end-of-stream
    signal is raised, the buffer is empty, a non-empty request was made
    and the pull failed.  So an invocation in which the loop is obtained
    and the write returns never stops while bytes are buffered, after a
    frame was pulled, or before the source has ended. *)
Theorem playback_stops_exactly_when cfg st frames env :
  outcome_of (invoke cfg st frames env) = Stopped <->
  (env_thread env = StreamThread
   \/ env_write_ok env = false
   \/ (done st = true /\ buffer st = [] /\ env_pull env = PullFailed
       /\ 0 < required_bytes cfg frames)).
Proof.
  unfold invoke.
  destruct (env_thread env); cbn [get_event_loop].
  { cbn [outcome_of fst snd]. split; [intros _; now left | reflexivity]. }
  unfold refill.
  destruct (Nat.ltb_spec (length (buffer st)) (required_bytes cfg frames))
    as [Hlt | Hge].
  - destruct (env_pull env) as [frame |].
    + destruct (env_write_ok env); cbn [outcome_of fst snd].
      * split; [discriminate |].
        intros [Ht | [Hw | [_ [_ [Hp _]]]]]; discriminate.
      * split; [intros _; right; now left | reflexivity].
    + destruct (done st && (length (buffer st) =? 0)) eqn:E.
      * cbn [outcome_of fst snd].
        apply stop_condition_iff in E. destruct E as [Hd Hb].
        split; [intros _ | reflexivity].
        right. right. repeat split; auto. lia.
      * destruct (env_write_ok env); cbn [outcome_of fst snd].
        -- split; [discriminate |].
           intros [Ht | [Hw | [Hd [Hb _]]]]; try discriminate.
           assert (Hc : (done st && (length (buffer st) =? 0)) = true)
             by (apply stop_condition_iff; now split).
           congruence.
        -- split; [intros _; right; now left | reflexivity].
  - destruct (env_write_ok env); cbn [outcome_of fst snd].
    + split; [discriminate |].
      intros [Ht | [Hw | [_ [Hb [_ Hpos]]]]]; try discriminate.
      rewrite Hb in Hge. cbn [length] in Hge. lia.
    + split; [intros _; right; now left | reflexivity].
Qed.

Lemma invoke_stopped_done cfg st frames env :
  env_returns env ->
  outcome_of (invoke cfg st frames env) = Stopped -> done st = true.
Proof.
  intros Hret. rewrite (invoke_returns _ _ _ _ Hret).
  unfold callback, refill.
  destruct (length (buffer st) <? required_bytes cfg frames);
    [destruct (env_pull env) as [frame |] |]; try discriminate.
  destruct (done st) eqn:Hd; [reflexivity | discriminate].
Qed.

Lemma invoke_keeps_done cfg st frames env :
  done (state_of (invoke cfg st frames env)) = done st.
Proof.
  unfold invoke.
  destruct (get_event_loop (env_thread env)); [| reflexivity].
  destruct (refill st (required_bytes cfg frames) (env_pull env));
    [| reflexivity].
  destruct (env_write_ok env); reflexivity.
Qed.

(** X3: before the end-of-stream signal is raised, the pulls never stop
    the stream: over any sequence of periods in each of which the event
    loop is obtained and the write returns, every period is answered with
    a written block, whatever the pulls do. *)
Theorem playback_pulls_never_stop_before_end_of_stream cfg
    (periods : list (nat * Env)) :
  forall st,
    done st = false ->
    Forall (fun p => env_returns (snd p)) periods ->
    length (snd (invoke_run cfg st periods)) = length periods
    /\ Forall (fun o => o <> Stopped) (snd (invoke_run cfg st periods))
    /\ done (fst (invoke_run cfg st periods)) = false.
Proof.
  induction periods as [| [frames env] rest IH]; intros st Hdone Hall.
  - cbn. repeat split; [constructor | exact Hdone].
  - inversion Hall as [| p ps Hp Hps]; subst. cbn [snd] in Hp.
    cbn [invoke_run].
    pose proof (invoke_stopped_done cfg st frames env Hp) as Hstop.
    pose proof (invoke_keeps_done cfg st frames env) as Hkeep.
    destruct (invoke cfg st frames env) as [[st' o] lg].
    cbn [outcome_of state_of fst snd] in Hstop, Hkeep.
    destruct o as [out |].
    + destruct (IH st') as [Hlen [Hall' Hd]]; [congruence | exact Hps |].
      destruct (invoke_run cfg st' rest) as [st'' os].
      cbn [fst snd length] in *.
      repeat split; [now rewrite Hlen | | exact Hd].
      constructor; [discriminate | exact Hall'].
    + specialize (Hstop eq_refl). congruence.
Qed.

Lemma playback_pulls_never_stop_before_end_of_stream_witness :
  let cfg := {| channels := 1; itemsize := 2 |} in
  let st := {| buffer := []; done := false |} in
  let on_loop pull := {| env_thread := LoopThread; env_pull := pull;
                         env_write_ok := true |} in
  length (snd (invoke_run cfg st
                 [(2, on_loop PullFailed); (1, on_loop (Pulled [x01]));
                  (3, on_loop PullFailed)])) = 3.
Proof.
  intros cfg st on_loop.
  apply (proj1 (playback_pulls_never_stop_before_end_of_stream cfg
                  [(2, on_loop PullFailed); (1, on_loop (Pulled [x01]));
                   (3, on_loop PullFailed)]
                  st eq_refl
                  ltac:(repeat constructor))).
Defined.



End PlaybackMore.

(* ===================================================================== *)
(** * Properties of the feeding loop of [playout] *)
(* ===================================================================== *)

Section PlayoutFacts.
Import Playout.

Lemma playout_run_snoc evs e : run (evs ++ [e]) = step (run evs) e.
Proof. unfold run. now rewrite fold_left_app. Qed.

Ltac playout_close :=
  repeat split; intros; unfold AsyncQueue.qsize in *;
  cbn [AsyncQueue.maxsize AsyncQueue.items length] in *;
  rewrite ?length_app, ?app_nil_r in *; cbn [length] in *;
  try assumption; try congruence; try lia;
  try (now rewrite <- app_assoc); try (now rewrite app_assoc).

Lemma try_put_inv st data :
  AsyncQueue.maxsize (queue st) = 100 ->
  AsyncQueue.qsize (queue st) <= 100 ->
  entered st = taken st ++ AsyncQueue.items (queue st) ->
  yielded st = entered st ++ [data] ->
  phase st = Feeding -> done st = false ->
  inv (try_put st data).
Proof.
  destruct st as [q hand dn ph yl en tk]. cbn [queue in_hand done phase
    yielded entered taken]. intros Hm Hq He Hy Hph Hd. subst ph dn.
  unfold try_put, AsyncQueue.put_nowait, AsyncQueue.full, inv, held.
  cbn [queue in_hand done phase yielded entered taken]. rewrite Hm.
  cbn [Nat.eqb].
  destruct (Nat.leb_spec 100 (AsyncQueue.qsize q)) as [Hfull | Hroom];
    cbn [queue in_hand done phase yielded entered taken];
    playout_close.
  rewrite He. now rewrite app_assoc.
Qed.

Lemma step_inv st e : inv st -> inv (step st e).
Proof.
  intros Hinv. pose proof Hinv as [Hm [Hq [He [Hy [Hd [Hh Hr]]]]]].
  assert (Hfeed : phase st = Feeding -> done st = false).
  { intros Hph. destruct (done st) eqn:Hdn; [| reflexivity].
    exfalso. apply (proj1 Hd); [reflexivity | exact Hph]. }
  destruct e as [data | | | | | b]; cbn [step].
  - unfold iter_yields.
    destruct (phase st) eqn:Hph; try exact Hinv.
    destruct (in_hand st) eqn:Hin; try exact Hinv.
    apply try_put_inv; cbn [queue in_hand done phase yielded entered taken];
      try assumption; try reflexivity; [| now apply Hfeed].
    rewrite Hy. unfold held. rewrite Hin. now rewrite app_nil_r.
  - unfold put_resumes.
    destruct (phase st) eqn:Hph; try exact Hinv.
    destruct (in_hand st) as [data |] eqn:Hin; try exact Hinv.
    apply try_put_inv; try assumption; [| now apply Hfeed].
    rewrite Hy. unfold held. now rewrite Hin.
  - unfold iter_ends.
    destruct (phase st) eqn:Hph; try exact Hinv.
    destruct (in_hand st) eqn:Hin; try exact Hinv.
    unfold inv, held in *. rewrite Hin in Hy.
    cbn [queue in_hand done phase yielded entered taken].
    playout_close.
  - unfold iter_raises.
    destruct (phase st) eqn:Hph; try exact Hinv.
    destruct (in_hand st) eqn:Hin; try exact Hinv.
    unfold inv, held in *. rewrite Hin in Hy.
    cbn [queue in_hand done phase yielded entered taken].
    playout_close.
  - unfold getter_takes, AsyncQueue.get_nowait.
    destruct (AsyncQueue.items (queue st)) as [| data rest] eqn:Hi;
      [exact Hinv |].
    unfold inv, held in *.
    cbn [queue in_hand done phase yielded entered taken].
    playout_close.
    + rewrite Hi in Hq. cbn [length] in Hq. lia.
    + now apply Hd.
    + now apply Hd.
    + now apply Hh.
    + specialize (Hr H). discriminate Hr.
  - unfold wait_check.
    destruct (phase st) eqn:Hph; try exact Hinv.
    destruct (AsyncQueue.empty (queue st) && b) eqn:Hc; [| exact Hinv].
    apply andb_true_iff in Hc. destruct Hc as [Hemp _].
    unfold AsyncQueue.empty in Hemp.
    unfold inv, held in *.
    cbn [queue in_hand done phase yielded entered taken].
    playout_close.
    + apply Hd. discriminate.
    + apply Hh. discriminate.
    + destruct (AsyncQueue.items (queue st)); [reflexivity | discriminate].
Qed.

Lemma inv_run evs : inv (run evs).
Proof.
  induction evs as [| e evs IH] using rev_ind.
  - unfold inv; cbn. playout_close.
  - rewrite playout_run_snoc. now apply step_inv.
Qed.

(** X5: the playback input queue of [playout] never holds more than 100
    frames, whatever the source yields and however slowly the callback
    takes frames: a frame that finds the queue full stays with the
    suspended producer. *)
Theorem playout_queue_bounded (evs : list Event) :
  AsyncQueue.qsize (queue (run evs)) <= 100
  /\ length (held (run evs)) <= 1.
Proof.
  destruct (inv_run evs) as [_ [Hq _]]. split; [exact Hq |].
  unfold held. destruct (in_hand (run evs)); cbn; lia.
Qed.

(** X6: [playout] hands frames over in the order of the source and
    loses none: at any moment the frames the source has yielded are, in
    order, those already taken from the queue, those still queued, and
    the one a suspended [put] holds. *)
Theorem playout_feeds_in_order (evs : list Event) :
  yielded (run evs) =
    taken (run evs) ++ AsyncQueue.items (queue (run evs)) ++ held (run evs).
Proof.
  destruct (inv_run evs) as [_ [_ [He [Hy _]]]].
  rewrite Hy, He. now rewrite app_assoc.
Qed.

(** X7: the end-of-stream signal is raised only when the source has
    ended, and then every frame it yielded has entered the queue; when
    [playout] has returned, every frame has moreover been taken from the
    queue. *)
Theorem playout_done_after_everything_queued (evs : list Event) :
  (done (run evs) = true ->
   phase (run evs) <> Feeding
   /\ in_hand (run evs) = None
   /\ yielded (run evs) = entered (run evs))
  /\ (phase (run evs) = Returned ->
      done (run evs) = true
      /\ AsyncQueue.items (queue (run evs)) = []
      /\ taken (run evs) = yielded (run evs)).
Proof.
  destruct (inv_run evs) as [_ [_ [He [Hy [Hd [Hh Hr]]]]]].
  assert (Hall : phase (run evs) <> Feeding ->
                 in_hand (run evs) = None
                 /\ yielded (run evs) = entered (run evs)).
  { intros Hph. specialize (Hh Hph). split; [exact Hh |].
    rewrite Hy. unfold held. rewrite Hh. now rewrite app_nil_r. }
  split.
  - intros Hdone. apply Hd in Hdone.
    destruct (Hall Hdone) as [H1 H2]. repeat split; assumption.
  - intros Hret.
    assert (Hph : phase (run evs) <> Feeding) by (rewrite Hret; discriminate).
    destruct (Hall Hph) as [_ H2].
    repeat split.
    + now apply Hd.
    + now apply Hr.
    + rewrite H2, He, (Hr Hret). now rewrite app_nil_r.
Qed.

Example playout_blocks_on_full_queue :
  let st := run (map IterYields (repeat [x00; x00] 101)) in
  AsyncQueue.qsize (queue st) = 100 /\ in_hand st = Some [x00; x00].
Proof. vm_compute. split; reflexivity. Qed.

End PlayoutFacts.

(* ===================================================================== *)
(** * Further properties of the capture hand-off *)
(* ===================================================================== *)

Section CaptureMore.
Import Capture.

Lemma loop_drains_handles (r : list bytes) :
  forall st,
    AsyncQueue.maxsize (queue st) = 0 -> ready st = r ->
    let st' := fold_left step (repeat LoopRunsHandle (length r)) st in
    ready st' = []
    /\ AsyncQueue.items (queue st') = AsyncQueue.items (queue st) ++ r
    /\ yielded st' = yielded st
    /\ lost st' = lost st.
Proof.
  induction r as [| frame r IH]; intros st Hm Hr; cbn zeta.
  - cbn. rewrite app_nil_r. auto.
  - cbn [length repeat fold_left step]. unfold run_handle. rewrite Hr.
    rewrite (put_nowait_unbounded _ _ Hm).
    match goal with
    | |- context [fold_left step _ ?s1] =>
        destruct (IH s1) as [H1 [H2 [H3 H4]]]; [reflexivity | reflexivity |]
    end.
    rewrite H1, H2, H3, H4. cbn [queue yielded lost AsyncQueue.items].
    repeat split. now rewrite <- app_assoc.
Qed.

Lemma consumer_drains_queue (l : list bytes) :
  forall st,
    AsyncQueue.items (queue st) = l ->
    let st' := fold_left step (repeat ConsumerGet (length l)) st in
    ready st' = ready st
    /\ AsyncQueue.items (queue st') = []
    /\ yielded st' = yielded st ++ l
    /\ lost st' = lost st.
Proof.
  induction l as [| frame l IH]; intros st Hi; cbn zeta.
  - cbn. rewrite app_nil_r. auto.
  - cbn [length repeat fold_left step].
    unfold consume, AsyncQueue.get_nowait. rewrite Hi.
    match goal with
    | |- context [fold_left step _ ?s1] =>
        destruct (IH s1) as [H1 [H2 [H3 H4]]]; [reflexivity |]
    end.
    rewrite H1, H2, H3, H4. cbn [ready yielded lost].
    repeat split. now rewrite <- app_assoc.
Qed.

(** X8: what the hand-off delivers: once the loop has run the registered
    handles and the consumer has read as many frames as are buffered,
    nothing is left buffered and the generator has yielded, in capture
    order, exactly the frames of the invocations in which
    [asyncio.get_event_loop()] returned; the frames of the invocations in
    which it raised, as it does in the thread of the stream, are lost and
    never yielded. *)
Theorem capture_drains_what_was_registered (evs : list Event) :
  let st := run evs in
  let st' := run (evs ++ repeat LoopRunsHandle (length (ready st))
                      ++ repeat ConsumerGet (buffered st)) in
  yielded st' = registered evs
  /\ buffered st' = 0
  /\ lost st' = unregistered evs.
Proof.
  intros st st'. subst st'. unfold run. rewrite !fold_left_app.
  fold (run evs). fold st.
  destruct (capture_inv_run evs) as [Hm [Hl Hc]]. fold st in Hm, Hl, Hc.
  destruct (loop_drains_handles (ready st) st Hm eq_refl) as [H1 [H2 [H3 H4]]].
  set (st1 := fold_left step (repeat LoopRunsHandle (length (ready st))) st) in *.
  assert (Hb : buffered st = length (AsyncQueue.items (queue st1))).
  { rewrite H2, length_app. unfold buffered, AsyncQueue.qsize. lia. }
  rewrite Hb.
  destruct (consumer_drains_queue (AsyncQueue.items (queue st1)) st1 eq_refl)
    as [G1 [G2 [G3 G4]]].
  repeat split.
  - rewrite G3, H3, H2, <- Hc. reflexivity.
  - unfold buffered, AsyncQueue.qsize. rewrite G1, G2, H1. reflexivity.
  - rewrite G4, H4. exact Hl.
Qed.

Example capture_mixed_threads :
  let evs := [HwCallback LoopThread [x01]; HwCallback StreamThread [x02];
              HwCallback LoopThread [x03]; LoopRunsHandle; LoopRunsHandle;
              ConsumerGet; ConsumerGet] in
  yielded (run evs) = [[x01]; [x03]] /\ lost (run evs) = [[x02]].
Proof. split; reflexivity. Qed.

End CaptureMore.

(* ===================================================================== *)
(** * Further properties of [QueueIterator] *)
(* ===================================================================== *)

Section QueueIteratorMore.
Import QueueIterator.
Context {A : Type}.

Lemma async_for_segment (xs : list A) :
  forall (q : @queue A) rest fuel,
    AsyncQueue.wf q ->
    AsyncQueue.items q = map Some xs ++ None :: rest ->
    length xs < fuel ->
    async_for fuel q =
      (xs, Exhausted,
       AsyncQueue.mk (AsyncQueue.maxsize q) rest
         (AsyncQueue.unfinished_tasks q - S (length xs))).
Proof.
  induction xs as [| x xs IH]; intros q rest fuel Hwf Hi Hf.
  - destruct fuel as [| f]; [lia |]. cbn [map app] in Hi.
    cbn [async_for]. rewrite (anext_cons q None rest Hwf Hi).
    cbn [answer_for length]. now rewrite Nat.sub_1_r.
  - destruct fuel as [| f]; [cbn in Hf; lia |]. cbn [map app] in Hi.
    cbn [async_for]. rewrite (anext_cons q (Some x) _ Hwf Hi).
    cbn [answer_for].
    unfold AsyncQueue.wf, AsyncQueue.qsize in Hwf. rewrite Hi in Hwf.
    cbn [length] in Hwf, Hf.
    rewrite (IH _ rest f).
    + cbn [AsyncQueue.maxsize AsyncQueue.unfinished_tasks length].
      f_equal. f_equal. lia.
    + unfold AsyncQueue.wf, AsyncQueue.qsize.
      cbn [AsyncQueue.items AsyncQueue.unfinished_tasks]. lia.
    + reflexivity.
    + lia.
Qed.

Lemma async_for_no_marker (xs : list A) :
  forall (q : @queue A) fuel,
    AsyncQueue.wf q ->
    AsyncQueue.items q = map Some xs ->
    length xs < fuel ->
    async_for fuel q =
      (xs, Waiting,
       AsyncQueue.mk (AsyncQueue.maxsize q) []
         (AsyncQueue.unfinished_tasks q - length xs)).
Proof.
  induction xs as [| x xs IH]; intros q fuel Hwf Hi Hf.
  - destruct fuel as [| f]; [lia |]. cbn [map] in Hi.
    cbn [async_for]. rewrite (anext_empty q Hi).
    cbn [length]. rewrite Nat.sub_0_r.
    destruct q as [m its u]. cbn in Hi |- *. now subst its.
  - destruct fuel as [| f]; [cbn in Hf; lia |]. cbn [map] in Hi.
    cbn [async_for]. rewrite (anext_cons q (Some x) _ Hwf Hi).
    cbn [answer_for].
    unfold AsyncQueue.wf, AsyncQueue.qsize in Hwf. rewrite Hi in Hwf.
    cbn [length] in Hwf, Hf.
    rewrite (IH _ f).
    + cbn [AsyncQueue.maxsize AsyncQueue.unfinished_tasks length].
      f_equal. f_equal. lia.
    + unfold AsyncQueue.wf, AsyncQueue.qsize.
      cbn [AsyncQueue.items AsyncQueue.unfinished_tasks]. lia.
    + reflexivity.
    + lia.
Qed.

Lemma consume_segment (q : @queue A) xs rest :
  AsyncQueue.wf q ->
  AsyncQueue.items q = map Some xs ++ None :: rest ->
  consume q =
    (xs, Exhausted,
     AsyncQueue.mk (AsyncQueue.maxsize q) rest
       (AsyncQueue.unfinished_tasks q - S (length xs))).
Proof.
  intros Hwf Hi. unfold consume. apply async_for_segment; auto.
  unfold AsyncQueue.qsize. rewrite Hi, length_app, length_map.
  cbn [length]. lia.
Qed.

(** X9: one iteration over a [QueueIterator] consumes one segment: when
    the queue holds the frames [xs], a [None] and then [rest], the loop
    delivers exactly [xs], ends, and leaves [rest] queued for a later
    iteration; each dequeued item, the [None] included, is acknowledged
    by one [task_done], so the queue's bookkeeping stays consistent.
    Without a [None] the loop delivers everything and waits. *)
Theorem queue_iterator_consumes_one_segment (q : @queue A) (xs : list A) :
  AsyncQueue.wf q ->
  (forall rest,
      AsyncQueue.items q = map Some xs ++ None :: rest ->
      exists q',
        consume q = (xs, Exhausted, q')
        /\ AsyncQueue.items q' = rest
        /\ AsyncQueue.unfinished_tasks q' + S (length xs) =
             AsyncQueue.unfinished_tasks q
        /\ AsyncQueue.wf q')
  /\ (AsyncQueue.items q = map Some xs ->
      exists q',
        consume q = (xs, Waiting, q')
        /\ AsyncQueue.items q' = []
        /\ AsyncQueue.unfinished_tasks q' + length xs =
             AsyncQueue.unfinished_tasks q).
Proof.
  intros Hwf. split.
  - intros rest Hi. eexists. split; [apply (consume_segment q xs rest Hwf Hi) |].
    unfold AsyncQueue.wf, AsyncQueue.qsize in *. rewrite Hi in Hwf.
    rewrite length_app, length_map in Hwf. cbn [length] in Hwf.
    cbn [AsyncQueue.items AsyncQueue.unfinished_tasks].
    repeat split; lia.
  - intros Hi. eexists. split.
    + unfold consume. apply async_for_no_marker; auto.
      unfold AsyncQueue.qsize. rewrite Hi, length_map. lia.
    + unfold AsyncQueue.wf, AsyncQueue.qsize in *. rewrite Hi in Hwf.
      rewrite length_map in Hwf.
      cbn [AsyncQueue.items AsyncQueue.unfinished_tasks].
      split; [reflexivity | lia].
Qed.

End QueueIteratorMore.

Lemma queue_iterator_consumes_one_segment_witness :
  let q : @QueueIterator.queue nat :=
    AsyncQueue.mk 0 [Some 1; Some 2; None; Some 3; None] 5 in
  exists q',
    QueueIterator.consume q = ([1; 2], QueueIterator.Exhausted, q')
    /\ QueueIterator.consume q' = ([3], QueueIterator.Exhausted,
                                   AsyncQueue.mk 0 [] 0).
Proof.
  intros q.
  assert (Hwf : AsyncQueue.wf q) by (unfold AsyncQueue.wf; cbn; lia).
  destruct (proj1 (queue_iterator_consumes_one_segment q [1; 2] Hwf)
              [Some 3; None] eq_refl) as [q' [Hc [Hi [Hu Hwf']]]].
  exists q'. split; [exact Hc |].
  injection Hc as <-. reflexivity.
Defined.

(* ===================================================================== *)
(** * Further properties of [GeminiTranscriber] *)
(* ===================================================================== *)

Section GeminiMore.
Import Gemini.

Lemma string_append_assoc (a b c : string) :
  String.append (String.append a b) c = String.append a (String.append b c).
Proof. induction a as [| ch a IH]; cbn; [reflexivity | now rewrite IH]. Qed.

Lemma string_append_empty_r (a : string) : String.append a EmptyString = a.
Proof. induction a as [| ch a IH]; cbn; [reflexivity | now rewrite IH]. Qed.

(** What the loop over the parts leaves alone, and what it does to the
    accumulated text. *)
Lemma start_session_parts_frame (parts : list Part) :
  forall g,
    audio_out (start_session_parts g parts) = audio_out g
    /\ session (start_session_parts g parts) = session g
    /\ result_queue (start_session_parts g parts) = result_queue g
    /\ full_text (start_session_parts g parts) =
         String.append (full_text g) (text_of_parts parts).
Proof.
  induction parts as [| p rest IH]; intros g;
    cbn [start_session_parts text_of_parts].
  - repeat split. now rewrite string_append_empty_r.
  - destruct (text p) as [s |]; [| destruct (inline_data p) as [data |]];
      match goal with
      | |- context [start_session_parts ?g1 rest] =>
          destruct (IH g1) as [E1 [E2 [E3 E4]]];
          rewrite E1, E2, E3, E4; repeat split
      end.
    cbn [full_text set_full_text]. apply string_append_assoc.
Qed.

Lemma start_session_response_frame g r :
  audio_out (start_session_response g r) = audio_out g
  /\ session (start_session_response g r) = session g.
Proof.
  unfold start_session_response.
  destruct (session_task g) as [[] |]; try (split; reflexivity).
  destruct (server_content r) as [sc |]; [| split; reflexivity].
  assert (Hparts : forall g1,
             g1 = match model_turn sc with
                  | Some parts => start_session_parts g parts
                  | None => g
                  end ->
             audio_out g1 = audio_out g /\ session g1 = session g).
  { intros g1 ->. destruct (model_turn sc) as [parts |].
    - destruct (start_session_parts_frame parts g) as [E1 [E2 _]]. now split.
    - now split. }
  destruct (Hparts _ eq_refl) as [E1 E2].
  destruct (turn_complete sc); [| now split].
  unfold start_session_turn_complete.
  destruct (full_text _); cbn; now split.
Qed.

Lemma stop_session_frame g :
  audio_out (fst (stop_session g)) = audio_out g
  /\ connects (fst (stop_session g)) = connects g
  /\ sent (fst (stop_session g)) = sent g.
Proof.
  destruct g as [ses sendt sest ain aout rq ft cn cl cx st lg].
  destruct sendt as [[] |], sest as [[] |], ses as [n |];
    repeat split.
Qed.

Lemma transcribe_audio_session_task g data env :
  session_task (fst (transcribe_audio g data env)) =
    match session_task g with
    | None => Some Scheduled
    | Some s => Some s
    end
  /\ connects (fst (transcribe_audio g data env)) = connects g
  /\ session (fst (transcribe_audio g data env)) = session g.
Proof.
  destruct g as [ses sendt sest ain aout rq ft cn cl cx st lg].
  unfold transcribe_audio, transcribe_body.
  cbn [session_task].
  destruct sest as [s |];
    cbn [audio_out set_session_task];
    (destruct (50 <=? AsyncQueue.qsize aout);
     [ repeat split
     | destruct env; [destruct (AsyncQueue.put_nowait aout data) | |];
       repeat split ]).
Qed.

Lemma transcribe_audio_bounded g data env :
  AsyncQueue.qsize (audio_out g) <= 50 ->
  AsyncQueue.qsize (audio_out (fst (transcribe_audio g data env))) <= 50.
Proof.
  destruct g as [ses sendt sest ain aout rq ft cn cl cx st lg].
  cbn [audio_out]. intros Hq.
  unfold transcribe_audio, transcribe_body. cbn [session_task].
  destruct sest as [s |]; cbn [audio_out set_session_task];
    (destruct (Nat.leb_spec 50 (AsyncQueue.qsize aout)) as [Hfull | Hroom];
     [ cbn; exact Hq
     | destruct env;
       [ unfold AsyncQueue.put_nowait; destruct (AsyncQueue.full aout); cbn;
         [ exact Hq
         | unfold AsyncQueue.qsize in *; cbn [AsyncQueue.items];
           rewrite length_app; cbn [length]; lia ]
       | cbn; exact Hq
       | cbn; exact Hq ] ]).
Qed.

Lemma send_audio_step_bounded g ok :
  AsyncQueue.qsize (audio_out g) <= 50 ->
  AsyncQueue.qsize (audio_out (send_audio_step g ok)) <= 50.
Proof.
  destruct g as [ses sendt sest ain aout rq ft cn cl cx st lg].
  cbn [audio_out]. intros Hq.
  unfold send_audio_step, AsyncQueue.get_nowait; cbn [send_task audio_out].
  destruct sendt as [[] |]; try exact Hq;
    (destruct (AsyncQueue.items aout) as [| data rest] eqn:Hi;
     [ exact Hq
     | unfold AsyncQueue.qsize in *; rewrite Hi in Hq; cbn [length] in Hq;
       destruct ses; [destruct ok |]; cbn; lia ]).
Qed.

Lemma start_session_enter_frame g ok :
  audio_out (start_session_enter g ok) = audio_out g
  /\ sent (start_session_enter g ok) = sent g.
Proof.
  destruct g as [ses sendt sest ain aout rq ft cn cl cx st lg].
  unfold start_session_enter; cbn [session_task session].
  destruct sest as [[] |], ses, ok; split; reflexivity.
Qed.

Lemma start_session_except_frame g ok :
  audio_out (start_session_except g ok) = audio_out g
  /\ sent (start_session_except g ok) = sent g.
Proof.
  destruct g as [ses sendt sest ain aout rq ft cn cl cx st lg].
  unfold start_session_except; cbn [session_task session add_log].
  destruct sest as [[] |], ses, ok; split; reflexivity.
Qed.

Lemma step_audio_out_bounded g e :
  AsyncQueue.qsize (audio_out g) <= 50 ->
  AsyncQueue.qsize (audio_out (step g e)) <= 50.
Proof.
  intros Hq. destruct e as [data env | ok | r | | ok | ok |]; cbn [step].
  - now apply transcribe_audio_bounded.
  - now rewrite (proj1 (start_session_enter_frame g ok)).
  - now rewrite (proj1 (start_session_response_frame g r)).
  - unfold start_session_next_round.
    destruct (session_task g) as [[] |]; exact Hq.
  - now rewrite (proj1 (start_session_except_frame g ok)).
  - now apply send_audio_step_bounded.
  - now rewrite (proj1 (stop_session_frame g)).
Qed.

(** X10: the outbound audio queue never holds more than 50 frames: from
    any state that respects the bound, no sequence of calls, loop turns,
    server events and stops makes it longer. *)
Theorem audio_out_never_exceeds_50 (g : t) (evs : list Event) :
  AsyncQueue.qsize (audio_out g) <= 50 ->
  AsyncQueue.qsize (audio_out (run g evs)) <= 50.
Proof.
  revert g. induction evs as [| e evs IH]; intros g Hq; [exact Hq |].
  unfold run in *. cbn [fold_left]. apply IH.
  now apply step_audio_out_bounded.
Qed.

Lemma audio_out_never_exceeds_50_witness :
  AsyncQueue.qsize
    (audio_out (run init (repeat (Transcribe [x00; x00] PutDone) 60))) <= 50.
Proof.
  apply (audio_out_never_exceeds_50 init
           (repeat (Transcribe [x00; x00] PutDone) 60)).
  cbn. lia.
Defined.

End GeminiMore.

Section LinkLifecycle.
Import Gemini.

Lemma step_single_connection g e :
  is_stop e = false ->
  connects g <= 1 ->
  (session_task g = None \/ session_task g = Some Scheduled ->
   connects g = 0 /\ session g = None) ->
  connects (step g e) <= 1
  /\ (session_task (step g e) = None
      \/ session_task (step g e) = Some Scheduled ->
      connects (step g e) = 0 /\ session (step g e) = None).
Proof.
  intros Hs Hc Hfresh.
  destruct e as [data env | ok | r | | ok | ok |]; cbn [step].
  - destruct (transcribe_audio_session_task g data env) as [E1 [E2 E3]].
    rewrite E1, E2, E3. split; [exact Hc |].
    intros Hst. apply Hfresh.
    destruct (session_task g) as [s |]; [| now left].
    destruct Hst as [Hst | Hst]; [discriminate | now right].
  - destruct g as [ses sendt sest ain aout rq ft cn cl cx st lg].
    cbn [session_task session connects] in *.
    unfold start_session_enter; cbn [session_task session].
    destruct sest as [[] |]; try (split; [exact Hc | exact Hfresh]).
    destruct (Hfresh (or_intror eq_refl)) as [Hcn Hses]. subst cn ses.
    destruct ok; cbn; split; try lia;
      intros [Hst | Hst]; discriminate Hst.
  - destruct (start_session_response_keeps g r) as [_ [E2 [_ E4]]].
    destruct (start_session_response_frame g r) as [_ E5].
    rewrite E2, E4, E5. now split.
  - unfold start_session_next_round.
    destruct (session_task g) as [[] |] eqn:Es; cbn; rewrite ?Es;
      split; try exact Hc; try exact Hfresh;
      try (intros [Hst | Hst]; discriminate Hst).
  - destruct g as [ses sendt sest ain aout rq ft cn cl cx st lg].
    cbn [session_task session connects] in *.
    unfold start_session_except; cbn [session_task session add_log].
    destruct sest as [[] |]; try (split; [exact Hc | exact Hfresh]).
    destruct ses, ok; cbn; split; try exact Hc;
      intros [Hst | Hst]; discriminate Hst.
  - destruct (send_step_keeps_session g ok) as [E1 [E2 E3]].
    rewrite E1, E2, E3. now split.
  - discriminate Hs.
Qed.

Lemma run_single_connection evs :
  forall g,
    Forall (fun e => is_stop e = false) evs ->
    connects g <= 1 ->
    (session_task g = None \/ session_task g = Some Scheduled ->
     connects g = 0 /\ session g = None) ->
    connects (run g evs) <= 1.
Proof.
  induction evs as [| e evs IH]; intros g Hall Hc Hfresh; [exact Hc |].
  inversion Hall as [| e' evs' He Hevs]; subst.
  destruct (step_single_connection g e He Hc Hfresh) as [Hc' Hfresh'].
  unfold run in *. cbn [fold_left]. now apply IH.
Qed.

(** X11: a transcriber opens at most one session in its life unless
    [stop_session] is called: however many frames are submitted and
    whatever the service and the loop do, [client.aio.live.connect] is
    called at most once. *)
Theorem at_most_one_connection (evs : list Event) :
  Forall (fun e => is_stop e = false) evs ->
  connects (run init evs) <= 1.
Proof.
  intros Hall. apply run_single_connection; [exact Hall | cbn; lia |].
  intros _. split; reflexivity.
Qed.

Lemma at_most_one_connection_witness :
  connects (run init [Transcribe [x00; x00] PutDone; SessionTaskRuns true;
                      ReceiveFails true; Transcribe [x01; x00] PutDone;
                      SessionTaskRuns true]) <= 1.
Proof.
  apply (at_most_one_connection
           [Transcribe [x00; x00] PutDone; SessionTaskRuns true;
            ReceiveFails true; Transcribe [x01; x00] PutDone;
            SessionTaskRuns true]).
  repeat constructor.
Defined.

(** X12: [stop_session] makes the link startable again: after a
    [stop_session] that returned, the next [transcribe_audio] schedules a
    new session task, and when that task runs and connects it opens one
    more connection, sets the session and starts a new send task. *)
Theorem stop_session_allows_restart (g : t) (data : bytes) (env : PutOutcome) :
  snd (stop_session g) = Ok tt ->
  let g1 := fst (stop_session g) in
  let g2 := fst (transcribe_audio g1 data env) in
  let g3 := start_session_enter g2 true in
  session_task g2 = Some Scheduled
  /\ session g3 = Some (connects g)
  /\ connects g3 = S (connects g)
  /\ session_task g3 = Some Running
  /\ send_task g3 = Some Scheduled.
Proof.
  intros Hok g1 g2 g3.
  destruct (stop_session_frame g) as [_ [Hcn _]]. fold g1 in Hcn.
  assert (Hclear : session g1 = None /\ session_task g1 = None).
  { subst g1.
    destruct g as [ses sendt sest ain aout rq ft cn cl cx st lg].
    destruct sendt as [[] |], sest as [[] |], ses as [n |];
      try discriminate Hok; split; reflexivity. }
  destruct Hclear as [Hses Hst].
  destruct (transcribe_audio_session_task g1 data env) as [E1 [E2 E3]].
  fold g2 in E1, E2, E3. rewrite Hst in E1. rewrite Hcn in E2.
  rewrite Hses in E3.
  split; [exact E1 |].
  subst g3. clearbody g2.
  destruct g2 as [ses sendt sest ain aout rq ft cn cl cx st lg].
  cbn [session_task session connects] in E1, E2, E3. subst sest cn ses.
  cbn. repeat split.
Qed.

Lemma stop_session_allows_restart_witness :
  let g := run init [Transcribe [x00; x00] PutDone; SessionTaskRuns true] in
  let g1 := fst (stop_session g) in
  let g2 := fst (transcribe_audio g1 [x01; x00] PutDone) in
  connects (start_session_enter g2 true) = 2.
Proof.
  intros g g1 g2.
  destruct (stop_session_allows_restart g [x01; x00] PutDone eq_refl)
    as [_ [_ [Hc _]]].
  exact Hc.
Defined.

Lemma step_sends_nothing_without_session g e :
  link_down g -> session g = None -> is_stop e = false ->
  sent (step g e) = sent g.
Proof.
  intros Hd Hses Hs.
  assert (Hne : session_task g <> None)
    by (destruct Hd as [H | H]; rewrite H; discriminate).
  destruct e as [data env | ok | r | | ok | ok |]; cbn [step].
  - apply (transcribe_audio_keeps_sending g data env Hne).
  - apply (start_session_enter_frame g ok).
  - apply (start_session_response_keeps g r).
  - unfold start_session_next_round.
    destruct (session_task g) as [[] |]; reflexivity.
  - apply (start_session_except_frame g ok).
  - destruct g as [ses sendt sest ain aout rq ft cn cl cx st lg].
    cbn [session] in Hses. subst ses.
    unfold send_audio_step, AsyncQueue.get_nowait; cbn [send_task audio_out].
    destruct sendt as [[] |]; try reflexivity;
      destruct (AsyncQueue.items aout); reflexivity.
  - discriminate Hs.
Qed.

Lemma run_sends_nothing_without_session evs :
  forall g,
    link_down g -> session g = None ->
    Forall (fun e => is_stop e = false) evs ->
    sent (run g evs) = sent g.
Proof.
  induction evs as [| e evs IH]; intros g Hd Hses Hall; [reflexivity |].
  inversion Hall as [| e' evs' He Hevs]; subst.
  destruct (step_link_down g e Hd He) as [Hd' [_ Hs']].
  unfold run in *. cbn [fold_left].
  rewrite (IH (step g e)); [| exact Hd' | congruence | exact Hevs].
  now apply step_sends_nothing_without_session.
Qed.

(** X13: after a receive error whose handler closed the session, no
    frame reaches the service any more: the send task is left running,
    and each frame it dequeues while [session] is [None] is discarded
    without a log entry. *)
Theorem frames_discarded_after_receive_error (g : t) (evs : list Event) :
  session_task g = Some Running ->
  Forall (fun e => is_stop e = false) evs ->
  let g1 := start_session_except g true in
  send_task g1 = send_task g
  /\ sent (run g1 evs) = sent g
  /\ (forall g0 data rest,
         session g0 = None ->
         send_task g0 = Some Running ->
         AsyncQueue.items (audio_out g0) = data :: rest ->
         AsyncQueue.items (audio_out (send_audio_step g0 true)) = rest
         /\ sent (send_audio_step g0 true) = sent g0
         /\ log (send_audio_step g0 true) = log g0).
Proof.
  intros Hrun Hall g1.
  destruct (start_session_except_down g true Hrun) as [Hd [_ [Hs _]]].
  fold g1 in Hd, Hs.
  split; [| split].
  - subst g1.
    destruct g as [ses sendt sest ain aout rq ft cn cl cx st lg].
    cbn [session_task] in Hrun. subst sest.
    unfold start_session_except; cbn [session_task session add_log].
    destruct ses; reflexivity.
  - rewrite (run_sends_nothing_without_session evs g1 Hd (Hs eq_refl) Hall).
    apply (start_session_except_frame g true).
  - intros g0 data rest Hses Hsend Hi.
    destruct g0 as [ses sendt sest ain aout rq ft cn cl cx st lg].
    cbn [session send_task audio_out] in Hses, Hsend, Hi. subst ses sendt.
    unfold send_audio_step, AsyncQueue.get_nowait; cbn [send_task audio_out].
    rewrite Hi. cbn. repeat split.
Qed.

Lemma frames_discarded_after_receive_error_witness :
  let g := run init [Transcribe [x00; x00] PutDone; SessionTaskRuns true;
                     SendRuns true] in
  let g1 := start_session_except g true in
  sent (run g1 [Transcribe [x01; x00] PutDone; SendRuns true]) =
  [[x00; x00]].
Proof.
  intros g g1.
  destruct (frames_discarded_after_receive_error g
              [Transcribe [x01; x00] PutDone; SendRuns true] eq_refl
              ltac:(repeat constructor)) as [_ [Hs _]].
  exact Hs.
Defined.

(** X14: when the session task ended with an exception because
    [session.close()] raised in the error handler, [stop_session] cannot
    release the session: it cancels and clears the send task, then
    re-raises the stored exception while awaiting the session task, so
    [session_task] and [session] stay set and [close()] is not called
    again; a second call raises in the same way. *)
Theorem stop_session_reraises_failed_session_task (g : t) :
  session_task g = Some Running ->
  session g <> None ->
  send_task g <> Some Failed ->
  let g1 := start_session_except g false in
  let g2 := fst (stop_session g1) in
  session_task g1 = Some Failed
  /\ closes g1 = S (closes g)
  /\ snd (stop_session g1) = Raise OtherError
  /\ send_task g2 = None
  /\ session_task g2 = Some Failed
  /\ session g2 = session g
  /\ closes g2 = closes g1
  /\ snd (stop_session g2) = Raise OtherError.
Proof.
  destruct g as [ses sendt sest ain aout rq ft cn cl cx st lg].
  cbn [session_task session send_task]. intros Hrun Hses Hsend. subst sest.
  destruct ses as [n |]; [| congruence].
  destruct sendt as [[] |]; try congruence; cbn; repeat split.
Qed.

Lemma stop_session_reraises_failed_session_task_witness :
  let g := run init [Transcribe [x00; x00] PutDone; SessionTaskRuns true] in
  session (fst (stop_session (start_session_except g false))) = Some 0.
Proof.
  intros g.
  destruct (stop_session_reraises_failed_session_task g eq_refl)
    as [_ [_ [_ [_ [_ [Hs _]]]]]]; [discriminate | discriminate |].
  exact Hs.
Defined.

End LinkLifecycle.

Section TurnFacts.
Import Gemini.

Lemma put_unbounded_wf {A : Type} (q : AsyncQueue.t A) (x : A) :
  AsyncQueue.maxsize q = 0 -> AsyncQueue.wf q ->
  AsyncQueue.wf (put_unbounded q x).
Proof.
  intros Hm Hwf. unfold put_unbounded. rewrite (put_nowait_unbounded q x Hm).
  unfold AsyncQueue.wf, AsyncQueue.qsize in *.
  cbn [AsyncQueue.items AsyncQueue.unfinished_tasks].
  rewrite length_app. cbn [length]. lia.
Qed.

Lemma start_session_parts_wf (parts : list Part) :
  forall g,
    AsyncQueue.maxsize (audio_in g) = 0 ->
    AsyncQueue.wf (audio_in g) ->
    AsyncQueue.wf (audio_in (start_session_parts g parts)).
Proof.
  induction parts as [| p rest IH]; intros g Hm Hwf;
    cbn [start_session_parts]; [exact Hwf |].
  destruct (text p) as [s |]; [| destruct (inline_data p) as [data |]].
  - now apply IH.
  - apply IH; cbn [audio_in set_audio_in].
    + now apply put_unbounded_items.
    + now apply put_unbounded_wf.
  - now apply IH.
Qed.

Lemma start_session_turn_complete_wf g :
  AsyncQueue.maxsize (audio_in g) = 0 ->
  AsyncQueue.wf (audio_in g) ->
  AsyncQueue.wf (audio_in (start_session_turn_complete g)).
Proof.
  intros Hm Hwf. unfold start_session_turn_complete.
  cbn [audio_in set_audio_in].
  destruct (full_text _);
    cbn [audio_in set_audio_in set_full_text add_log set_result_queue];
    now apply put_unbounded_wf.
Qed.

Lemma start_session_turn_complete_text g :
  AsyncQueue.maxsize (result_queue g) = 0 ->
  AsyncQueue.items (result_queue (start_session_turn_complete g)) =
    AsyncQueue.items (result_queue g) ++ [full_text g]
  /\ full_text (start_session_turn_complete g) = EmptyString.
Proof.
  intros Hm. unfold start_session_turn_complete.
  destruct (put_unbounded_items (result_queue g) (full_text g) Hm) as [Hi _].
  destruct g as [ses sendt sest ain aout rq ft cn cl cx st lg].
  cbn [result_queue full_text set_result_queue add_log set_full_text
       set_audio_in] in *.
  destruct ft; cbn; now split.
Qed.

(** X15: the text of a reply is delivered once per turn: the text
    fragments of the parts are appended to the accumulated text in
    arrival order; a message that completes the turn puts the whole text
    on the result queue as one item and empties the accumulator, a
    message that does not only extends it. *)
Theorem turn_text_is_delivered_on_turn_complete (g : t) (sc : ServerContent) :
  session_task g = Some Running ->
  AsyncQueue.maxsize (result_queue g) = 0 ->
  let g' := start_session_response g {| server_content := Some sc |} in
  let txt := String.append (full_text g) (text_of_turn sc) in
  (turn_complete sc = true ->
   AsyncQueue.items (result_queue g') =
     AsyncQueue.items (result_queue g) ++ [txt]
   /\ full_text g' = EmptyString)
  /\ (turn_complete sc = false ->
      result_queue g' = result_queue g /\ full_text g' = txt).
Proof.
  intros Hrun Hm g' txt. subst g' txt.
  unfold start_session_response, text_of_turn. rewrite Hrun.
  cbn [server_content].
  assert (Hparts : forall g1,
             g1 = match model_turn sc with
                  | Some parts => start_session_parts g parts
                  | None => g
                  end ->
             result_queue g1 = result_queue g
             /\ full_text g1 =
                  String.append (full_text g)
                    match model_turn sc with
                    | Some parts => text_of_parts parts
                    | None => EmptyString
                    end).
  { intros g1 ->. destruct (model_turn sc) as [parts |].
    - destruct (start_session_parts_frame parts g) as [_ [_ [E3 E4]]].
      now split.
    - split; [reflexivity | now rewrite string_append_empty_r]. }
  destruct (Hparts _ eq_refl) as [Hrq Hft].
  split; intros Htc; rewrite Htc.
  - destruct (start_session_turn_complete_text
                (match model_turn sc with
                 | Some parts => start_session_parts g parts
                 | None => g
                 end)) as [Hi Hempty]; [now rewrite Hrq |].
    rewrite Hi, Hrq, Hft. now split.
  - now split.
Qed.

Lemma turn_text_is_delivered_on_turn_complete_witness :
  let g := run init [Transcribe [x00; x00] PutDone; SessionTaskRuns true;
                     Receives {| server_content := Some
                       {| model_turn := Some [{| text := Some "Hel"%string;
                                                 inline_data := None |}];
                          turn_complete := false |} |}] in
  let sc := {| model_turn := Some [{| text := Some "lo"%string;
                                      inline_data := Some [x01; x00] |}];
               turn_complete := true |} in
  AsyncQueue.items
    (result_queue (start_session_response g {| server_content := Some sc |}))
  = ["Hello"%string].
Proof.
  intros g sc.
  destruct (turn_text_is_delivered_on_turn_complete g sc eq_refl eq_refl)
    as [Hdone _].
  destruct (Hdone eq_refl) as [Hi _]. exact Hi.
Defined.

(** X16: the audio of a turn reaches the player in arrival order and the
    turn-complete marker ends the iteration: when the input queue holds
    only frames, the frames already queued followed by the audio of the
    completing message are exactly what one iteration over
    [audio_in_iterator] delivers, and the queue is left empty. *)
Theorem turn_audio_is_played_in_order
    (g : t) (sc : ServerContent) (pending : list bytes) :
  session_task g = Some Running ->
  AsyncQueue.maxsize (audio_in g) = 0 ->
  AsyncQueue.wf (audio_in g) ->
  AsyncQueue.items (audio_in g) = map Some pending ->
  turn_complete sc = true ->
  let g' := start_session_response g {| server_content := Some sc |} in
  exists q',
    QueueIterator.consume (audio_in g') =
      (pending ++ audio_of_turn sc, QueueIterator.Exhausted, q')
    /\ AsyncQueue.items q' = [].
Proof.
  intros Hrun Hm Hwf Hi Htc g'.
  assert (Hitems : AsyncQueue.items (audio_in g') =
                   map Some (pending ++ audio_of_turn sc) ++ None :: []).
  { subst g'. unfold start_session_response, audio_of_turn. rewrite Hrun.
    cbn [server_content]. rewrite Htc.
    destruct (model_turn sc) as [parts |].
    - destruct (handle_parts_audio_in parts g Hm) as [Hp Hm'].
      rewrite (handle_turn_complete_audio_in _ Hm'), Hp, Hi.
      now rewrite map_app, <- app_assoc.
    - rewrite (handle_turn_complete_audio_in _ Hm), Hi.
      now rewrite app_nil_r. }
  assert (Hwf' : AsyncQueue.wf (audio_in g')).
  { subst g'. unfold start_session_response. rewrite Hrun.
    cbn [server_content]. rewrite Htc.
    destruct (model_turn sc) as [parts |].
    - destruct (handle_parts_audio_in parts g Hm) as [_ Hm'].
      apply start_session_turn_complete_wf; [exact Hm' |].
      now apply start_session_parts_wf.
    - now apply start_session_turn_complete_wf. }
  eexists. split.
  - apply (consume_segment (audio_in g') _ [] Hwf' Hitems).
  - reflexivity.
Qed.

Lemma turn_audio_is_played_in_order_witness :
  let g := run init [Transcribe [x00; x00] PutDone; SessionTaskRuns true;
                     Receives (audio_response [x01; x00])] in
  let sc := {| model_turn := Some [{| text := None;
                                      inline_data := Some [x02; x00] |}];
               turn_complete := true |} in
  exists q',
    QueueIterator.consume
      (audio_in (start_session_response g {| server_content := Some sc |})) =
    ([[x01; x00]; [x02; x00]], QueueIterator.Exhausted, q').
Proof.
  intros g sc.
  destruct (turn_audio_is_played_in_order g sc [[x01; x00]]) as [q' [Hc _]];
    try reflexivity.
  - unfold AsyncQueue.wf. cbn. lia.
  - exists q'. exact Hc.
Defined.

End TurnFacts.

(* ===================================================================== *)
(** * Further properties of [AudioTranslator] *)
(* ===================================================================== *)

Section FrombufferMore.
Import Translator.

Lemma frombuffer_partial_sample (n : nat) :
  forall data : bytes,
    length data = 2 * n + 1 -> frombuffer data = Raise ValueError.
Proof.
  induction n as [| n IH]; intros data Hlen.
  - destruct data as [| b [| b' rest]]; cbn [length] in Hlen; try lia.
    reflexivity.
  - destruct data as [| lo [| hi rest]]; cbn [length] in Hlen; try lia.
    cbn [frombuffer]. rewrite (IH rest) by lia. reflexivity.
Qed.

Lemma frombuffer_app (n : nat) :
  forall (d1 d2 : bytes) (a1 : list Z),
    length d1 = 2 * n -> frombuffer d1 = Ok a1 ->
    frombuffer (d1 ++ d2) = (a2 <- frombuffer d2 ;; Ok (a1 ++ a2)).
Proof.
  induction n as [| n IH]; intros d1 d2 a1 Hlen E.
  - destruct d1; [| discriminate Hlen]. cbn in E. injection E as <-.
    cbn [app]. destruct (frombuffer d2); reflexivity.
  - destruct d1 as [| lo [| hi rest]]; cbn [length] in Hlen; try lia.
    cbn [frombuffer] in E.
    destruct (frombuffer rest) as [arr |] eqn:Er; [| discriminate E].
    cbn [bind] in E. injection E as <-.
    cbn [app frombuffer]. rewrite (IH rest d2 arr) by (auto; lia).
    destruct (frombuffer d2); reflexivity.
Qed.

End FrombufferMore.

Section RecordingFacts.
Import Translator.
Context {T : Type} `{Transcriber T}.

(** X17: a frame that is not a whole number of 16-bit samples is
    neither recorded nor forwarded: [process_audio] logs an error and
    returns normally, and the recording buffer, the transcriber and
    everything else are left as they were. *)
Theorem process_audio_rejects_partial_sample
    (a : Translator.t T) (data : bytes) (env : Env) :
  length data mod 2 = 1 ->
  process_audio a data env =
    (add_log (LogError "process audio error") a, Ok tt).
Proof.
  intros Hodd. unfold process_audio, process_body.
  rewrite (frombuffer_partial_sample (length data / 2) data).
  - reflexivity.
  - pose proof (Nat.div_mod_eq (length data) 2). lia.
Qed.

Lemma process_audio_appends (a : Translator.t T) data env arr :
  frombuffer data = Ok arr ->
  recording_buffer (fst (process_audio a data env)) =
    recording_buffer a ++ [arr]
  /\ running (fst (process_audio a data env)) = running a.
Proof.
  intros E. destruct a as [isr osr ch rec pl tr buf run fl trc lg].
  unfold process_audio, process_body. rewrite E.
  cbn [transcriber add_effect set_recording_buffer].
  destruct (transcribe_audio tr data env) as [tr' [v | e]]; cbn; now split.
Qed.

(** The capture loop over frames only. *)
Lemma capture_loop_frames (frames : list (bytes * Env)) :
  forall a : Translator.t T,
    running a = true ->
    Forall (fun f => length (fst f) mod 2 = 0) frames ->
    let a' := capture_loop a (map (fun f => Frame (fst f) (snd f)) frames) in
    exists arr,
      frombuffer (concat (map fst frames)) = Ok arr
      /\ concatenate (recording_buffer a') =
           concatenate (recording_buffer a) ++ arr
      /\ length (concat (map fst frames)) = 2 * length arr
      /\ running a' = true.
Proof.
  induction frames as [| [data env] frames IH]; intros a Hrun Hall; cbn zeta.
  - exists []. cbn. rewrite app_nil_r. auto.
  - inversion Hall as [| f fs Hf Hfs]; subst. cbn [fst] in Hf.
    cbn [map fst snd capture_loop concat]. rewrite Hrun.
    destruct (frombuffer_pairs (length data / 2) data) as [arr1 [E1 Hl1]].
    { pose proof (Nat.div_mod_eq (length data) 2). lia. }
    destruct (process_audio_appends a data env arr1 E1) as [Hb Hr].
    destruct (IH (fst (process_audio a data env))) as [arr [E [Hc [Hl Hr']]]];
      [congruence | exact Hfs |].
    exists (arr1 ++ arr). repeat split.
    + rewrite (frombuffer_app (length data / 2) data _ arr1); auto.
      * now rewrite E.
      * pose proof (Nat.div_mod_eq (length data) 2). lia.
    + rewrite Hc, Hb. unfold concatenate.
      rewrite concat_app. cbn [concat]. rewrite app_nil_r.
      now rewrite app_assoc.
    + rewrite !length_app, Hl.
      pose proof (Nat.div_mod_eq (length data) 2). lia.
    + exact Hr'.
Qed.

(** X18: the recording is the decoding of the captured byte stream: for
    frames that are whole 16-bit samples, the concatenation of the
    recording buffer grows by [np.frombuffer] of the concatenated frames,
    however the stream was cut into frames, with one sample for every
    two captured bytes. *)
Theorem recording_decodes_the_byte_stream
    (a : Translator.t T) (frames : list (bytes * Env)) :
  running a = true ->
  Forall (fun f => length (fst f) mod 2 = 0) frames ->
  let a' := capture_loop a (map (fun f => Frame (fst f) (snd f)) frames) in
  exists arr,
    frombuffer (concat (map fst frames)) = Ok arr
    /\ concatenate (recording_buffer a') =
         concatenate (recording_buffer a) ++ arr
    /\ length (concat (map fst frames)) = 2 * length arr.
Proof.
  intros Hrun Hall a'.
  destruct (capture_loop_frames frames a Hrun Hall) as [arr [E [Hc [Hl _]]]].
  exists arr. repeat split; assumption.
Qed.

Lemma capture_loop_stopped (evs : list LoopEvent) :
  forall a : Translator.t T,
    running a = false ->
    recording_buffer (capture_loop a evs) = recording_buffer a
    /\ trace (capture_loop a evs) = trace a.
Proof.
  induction evs as [| e evs IH]; intros a Hrun; [now split |].
  destruct e as [data env | |]; cbn [capture_loop].
  - rewrite Hrun. now split.
  - destruct (stop_fields a) as [_ [_ [_ [Hb [Ht Hr]]]]].
    destruct (IH (fst (stop a)) Hr) as [Hb' Ht']. split; congruence.
  - destruct a; now split.
Qed.

(** X19: once [stop()] has been called, no later frame is recorded or
    forwarded: whatever the recorder still yields afterwards, the
    recording buffer and the trace of appends and forwards are those
    reached before the call. *)
Theorem nothing_is_recorded_after_stop (pre post : list LoopEvent) :
  forall a : Translator.t T,
    recording_buffer (capture_loop a (pre ++ StopCalled :: post)) =
      recording_buffer (capture_loop a pre)
    /\ trace (capture_loop a (pre ++ StopCalled :: post)) =
         trace (capture_loop a pre).
Proof.
  induction pre as [| e pre IH]; intros a.
  - cbn [app capture_loop].
    destruct (stop_fields a) as [_ [_ [_ [Hb [Ht Hr]]]]].
    destruct (capture_loop_stopped post (fst (stop a)) Hr) as [Hb' Ht'].
    split; congruence.
  - destruct e as [data env | |]; cbn [app capture_loop].
    + destruct (running a); [apply IH | now split].
    + apply IH.
    + now split.
Qed.

End RecordingFacts.

Lemma process_audio_rejects_partial_sample_witness :
  let a := Translator.init Gemini.init in
  Translator.recording_buffer
    (fst (@Translator.process_audio _ gemini_transcriber a
            [x01; x02; x03] Gemini.PutDone)) = [].
Proof.
  intros a.
  rewrite (@process_audio_rejects_partial_sample _ gemini_transcriber a
             [x01; x02; x03] Gemini.PutDone eq_refl).
  reflexivity.
Defined.

Lemma recording_decodes_the_byte_stream_witness :
  let a := Translator.init Gemini.init in
  let frames : list (bytes * @Env _ gemini_transcriber) :=
    [([xff; xff], Gemini.PutDone); ([x01; x00; x02; x00], Gemini.PutDone)] in
  exists arr,
    Translator.frombuffer [xff; xff; x01; x00; x02; x00] = Ok arr
    /\ Translator.concatenate
         (Translator.recording_buffer
            (Translator.capture_loop a
               (map (fun f => Translator.Frame (fst f) (snd f)) frames))) = arr.
Proof.
  intros a frames.
  destruct (@recording_decodes_the_byte_stream _ gemini_transcriber a frames
              eq_refl ltac:(repeat constructor)) as [arr [E [Hc _]]].
  exists arr. split; [exact E | exact Hc].
Defined.

(* ===================================================================== *)
(** * Properties of the [run] command *)
(* ===================================================================== *)

Section MainFacts.
Import Translator.
Context {T : Type} `{Transcriber T}.

Lemma start_streaming_files (a : Translator.t T) evs now :
  files (fst (start_streaming a evs now)) =
    files a ++
    match concatenate (recording_buffer (capture_loop a evs)) with
    | [] => []
    | x :: xs =>
        [{| filename := ("recordings" ++ "/" ++ "recording" ++ "_"
                           ++ now ++ ".wav")%string;
            rate := input_sample_rate a;
            samples := x :: xs |}]
    end.
Proof.
  unfold start_streaming, finally_block.
  destruct (stop_fields (flush (capture_loop a evs) now)) as [Hf _].
  rewrite Hf.
  destruct (flush_files (capture_loop a evs) now) as [_ [_ [_ Hf1]]].
  rewrite Hf1.
  destruct (capture_loop_fields evs a) as [Hf2 [Hr _]].
  now rewrite Hf2, Hr.
Qed.

(** X20: the sample rates given on the command line are assigned to the
    translator after its recorder and player were constructed, so they
    do not reach them: the recorder keeps the rate 16000 and the player
    the rate 24000 passed by [__init__], while every recording written
    by the session carries the input rate of the command line. *)
Theorem command_line_rates_do_not_reach_the_engines
    (o : Main.Options) (default_output : option string) (tr : T)
    (c : Main.Configured T) :
  Main.run o default_output tr = Main.Runs c ->
  r_samplerate (recorder (Main.translator c)) = 16000%N
  /\ p_samplerate (player (Main.translator c)) = 24000%N
  /\ input_sample_rate (Main.translator c) = Main.input_sample_rate o
  /\ output_sample_rate (Main.translator c) = Main.output_sample_rate o
  /\ (forall evs now f,
         In f (files (fst (start_streaming (Main.translator c) evs now))) ->
         rate f = Main.input_sample_rate o).
Proof.
  intros Hrun. unfold Main.run in Hrun.
  destruct (negb (Main.level_is_int o)); [discriminate Hrun |].
  destruct (Main.list_devices o); [discriminate Hrun |].
  assert (Hc : Main.translator c =
               Main.set_rates (init tr) (Main.input_sample_rate o)
                 (Main.output_sample_rate o)).
  { destruct (Main.use_blackhole o);
      [| destruct (Main.truthy (Main.output_device o));
         [| destruct (Main.truthy default_output)]];
      try discriminate Hrun; injection Hrun as <-; reflexivity. }
  rewrite Hc. repeat split.
  intros evs now f Hin. rewrite start_streaming_files in Hin.
  cbn [files Main.set_rates init app] in Hin.
  destruct (concatenate _) as [| x xs]; [contradiction Hin |].
  destruct Hin as [<- | []]. reflexivity.
Qed.

(** X21: the pipeline is only run with an output device selected: the
    command runs the translator exactly when the log level is valid,
    device listing was not asked for, and BlackHole, a non-empty output
    option or a default output device is available; the device it
    assigns is then a non-empty name, BlackHole overriding the output
    option and an empty output option falling back to the default. *)
Theorem run_selects_an_output_device
    (o : Main.Options) (default_output : option string) (tr : T) :
  ((exists c, Main.run o default_output tr = Main.Runs c) <->
   (Main.level_is_int o = true /\ Main.list_devices o = false
    /\ (Main.use_blackhole o = true
        \/ Main.truthy (Main.output_device o) = true
        \/ Main.truthy default_output = true)))
  /\ (forall c,
         Main.run o default_output tr = Main.Runs c ->
         Main.truthy (Main.translator_output_device c) = true
         /\ (Main.use_blackhole o = true ->
             Main.translator_output_device c = Some "BlackHole 2ch"%string)
         /\ (Main.use_blackhole o = false ->
             Main.truthy (Main.output_device o) = false ->
             Main.translator_output_device c = default_output)).
Proof.
  unfold Main.run.
  destruct (Main.level_is_int o), (Main.list_devices o),
    (Main.use_blackhole o), (Main.truthy (Main.output_device o)) eqn:Eo,
    (Main.truthy default_output) eqn:Ed; cbn [negb];
    (split;
     [ split;
       [ intros [c Hc]; try discriminate Hc; repeat split; auto
       | intros [H1 [H2 H3]]; try discriminate;
         try (destruct H3 as [H3 | [H3 | H3]]; discriminate);
         eexists; reflexivity ]
     | intros c Hc; try discriminate Hc; injection Hc as <-;
       cbn [Main.translator_output_device];
       repeat split; intros; try discriminate; auto ]).
Qed.

End MainFacts.

Lemma command_line_rates_do_not_reach_the_engines_witness :
  let o := {| Main.input_device := None; Main.output_device := None;
              Main.input_sample_rate := 44100%N;
              Main.output_sample_rate := 24000%N;
              Main.level_is_int := true; Main.list_devices := false;
              Main.use_blackhole := true |} in
  let c := {| Main.translator :=
                Main.set_rates (Translator.init Gemini.init) 44100%N 24000%N;
              Main.translator_input_device := None;
              Main.translator_output_device := Some "BlackHole 2ch"%string |} in
  Main.run o None Gemini.init = Main.Runs c
  /\ Translator.r_samplerate (Translator.recorder (Main.translator c)) = 16000%N
  /\ Translator.input_sample_rate (Main.translator c) = 44100%N.
Proof.
  intros o c.
  destruct (@command_line_rates_do_not_reach_the_engines _ gemini_transcriber
              o None Gemini.init c eq_refl) as [Hr [_ [Hi _]]].
  split; [reflexivity | split; [exact Hr | exact Hi]].
Defined.

Lemma playout_done_after_everything_queued_witness :
  let evs := [Playout.IterYields [x01; x00]; Playout.IterYields [x02; x00];
              Playout.IterEnds; Playout.GetterTakes; Playout.GetterTakes;
              Playout.WaitCheck true] in
  Playout.taken (Playout.run evs) = [[x01; x00]; [x02; x00]]
  /\ Playout.done (Playout.run evs) = true.
Proof.
  intros evs.
  destruct (playout_done_after_everything_queued evs) as [_ Hret].
  destruct (Hret eq_refl) as [Hd [_ Ht]].
  split; [rewrite Ht; reflexivity | exact Hd].
Defined.

Lemma run_selects_an_output_device_witness :
  let o := {| Main.input_device := None;
              Main.output_device := Some EmptyString;
              Main.input_sample_rate := 16000%N;
              Main.output_sample_rate := 24000%N;
              Main.level_is_int := true; Main.list_devices := false;
              Main.use_blackhole := false |} in
  let c := {| Main.translator :=
                Main.set_rates (Translator.init Gemini.init) 16000%N 24000%N;
              Main.translator_input_device := None;
              Main.translator_output_device := Some "Speakers"%string |} in
  Main.run o (Some "Speakers"%string) Gemini.init = Main.Runs c
  /\ Main.truthy (Main.translator_output_device c) = true.
Proof.
  intros o c.
  destruct (run_selects_an_output_device o (Some "Speakers"%string) Gemini.init)
    as [_ Hdev].
  destruct (Hdev c eq_refl) as [Ht _].
  split; [reflexivity | exact Ht].
Defined.
